(** * leafletInterop.js: the map registry and its interop calls

    A shallow embedding of
    [_content/CompanyApp.Components.Chiefdom.Dashboards/leafletInterop.js].

    The module keeps one piece of state of its own, the object [maps], and
    talks to four collaborators: the DOM ([document.getElementById]), the
    timer queue ([setTimeout]), the diagnostic channel ([console.error]) and
    the Leaflet library ([L.map], [L.marker], ...).  All of them are made
    explicit in [State]; every exported function becomes a computation in a
    state-and-exception monad [M], since a JavaScript call either returns or
    throws, and what it did before throwing stays done.

    Leaflet is not part of the module.  Its objects are modelled by what the
    module can make of them: a map has a container, a view and the layers
    the module put on it; a layer has a kind, perhaps a popup, and the maps
    it was added to.  What Leaflet computes from coordinates (regions,
    pixels, tiles) is kept as the request that was made, and where such a
    computation can fail and the failure reaches the module, the outcome
    is a parameter of the model ([Leaflet]). *)

From Stdlib Require Import QArith.
From stdpp Require Import gmap strings list fin_maps.

#[local] Set Warnings "-clear-no-such-hyp".

(** ** JavaScript values the module handles *)

(** Numbers cross the interop boundary JSON-encoded, hence finite; the module
    never computes with them, it stores and forwards them.  Every finite
    double is a rational. *)
Definition number : Type := Q.

(** An argument documented as a string that the caller may leave out. *)
Inductive jsval : Type :=
  | JUndefined
  | JNull
  | JStr (s : string).

Global Instance jsval_eq_dec : EqDecision jsval.
Proof. solve_decision. Defined.

(** [ToBoolean]: [undefined], [null] and the empty string are falsy. *)
Definition truthy (v : jsval) : bool :=
  match v with
  | JStr s => negb (String.eqb s "")
  | _ => false
  end.

(** [a || b] *)
Definition js_or (a b : jsval) : jsval := if truthy a then a else b.

Inductive JsError : Type :=
  | TypeError (msg : string)
  | Error (msg : string).

(** ** The Leaflet library, as far as the module drives it

    Leaflet stamps every object it creates with a number from one global
    counter; that number is the handle. *)
Abbreviation handle := nat (only parsing).

Inductive LayerKind : Type :=
  | TileLayer (urlTemplate attribution : string) (maxZoom : number)
  | Marker (lat lng : number) (title : jsval)
  | Circle (lat lng : number) (color fillColor : string)
           (fillOpacity radius : number).

(** Markers and circles, the layers the registry keeps track of. *)
Definition is_overlay (k : LayerKind) : bool :=
  match k with
  | TileLayer _ _ _ => false
  | _ => true
  end.

(** [l_added_to] is the set of maps that [addLayer] was ever called on with
    this layer; Leaflet does not keep it, the model does, to state that a
    layer was attached to one map and no other. *)
Record Layer : Type := mkLayer {
  l_kind : LayerKind;
  l_popup : option jsval;
  l_added_to : gset handle
}.

(** The region computations belong to the library; the model records which
    were asked for. *)
Inductive Bounds : Type :=
  | GroupBounds (ls : list handle)
  | Pad (b : Bounds) (bufferRatio : number).

Inductive View : Type :=
  | NoView
  | SetView (lat lng zoom : number)
  | FitView (b : Bounds).

(** [m_view] is the last view that was asked for.  [m_layers] holds the
    layers that the module added to the map with [addTo] and has not taken
    off with [removeLayer]; what Leaflet puts on a map by itself (the
    renderer it makes for the first circle) is not recorded. *)
Record LMap : Type := mkLMap {
  m_container : string;
  m_view : View;
  m_layers : gset handle
}.

(** [w_containers] holds the identifiers of the elements on the page that
    Leaflet has marked as the container of a map. *)
Record World : Type := mkWorld {
  w_next : handle;
  w_maps : gmap handle LMap;
  w_layers : gmap handle Layer;
  w_containers : gset string
}.

(** Two computations of Leaflet can end in an exception that reaches the
    module: loading the tiles of a map for its view (when a tile layer is
    put on the map, and when the view of the map is changed), and the
    region of a feature group.  Both depend on arithmetic on coordinates
    that is Leaflet's business; here they are what the library is asked,
    answering with the error it throws, if any. *)
Class Leaflet : Type := mkLeaflet {
  on_tiles : LMap → option JsError;
  on_bounds : World → list handle → option JsError
}.

(** *** A library to run the examples with

    It loads tiles for a centre on the globe and gives the region of a
    group whose circles are centred on the globe, and refuses the rest.
    Leaflet itself is more lenient near the globe; far from it, it refuses
    as this one does: at a longitude of 1e308 degrees its projection
    overflows, the tile range is infinite and the corner of a circle is not
    a number.  Leaflet's message for the latter goes on with the pair of
    coordinates it refused, which the sample leaves out. *)
Definition on_globe (lat lng : number) : bool :=
  Qle_bool (-90) lat && Qle_bool lat 90 &&
  Qle_bool (-180) lng && Qle_bool lng 180.

Definition view_on_globe (v : View) : bool :=
  match v with
  | SetView lat lng _ => on_globe lat lng
  | _ => true
  end.

Definition circle_on_globe (w : World) (h : handle) : bool :=
  match l_kind <$> w_layers w !! h with
  | Some (Circle lat lng _ _ _ _) => on_globe lat lng
  | _ => true
  end.

Definition leaflet_sample : Leaflet :=
  mkLeaflet
    (λ mp, if view_on_globe (m_view mp) then None
           else Some (Error "Attempted to load an infinite number of tiles"))
    (λ w ls, if forallb (circle_on_globe w) ls then None
             else Some (Error "Invalid LatLng object")).

(** ** The module's state *)

(** The object literal [{ map: map, layers: [] }]. *)
Record MapData : Type := mkMapData {
  md_map : handle;
  md_layers : list handle
}.

(** The arrow function handed to [setTimeout] closes over the four
    arguments of [initializeMap]. *)
Record Timer : Type := mkTimer {
  t_delay : number;
  t_mapId : string;
  t_latitude : number;
  t_longitude : number;
  t_zoom : number
}.

(** [maps] holds the own properties of the object [let maps = {}]. *)
Record State : Type := mkState {
  maps : gmap string MapData;
  document : gset string;
  leaflet : World;
  console : list string;
  timers : list Timer
}.

Definition set_maps (f : gmap string MapData → gmap string MapData)
    (s : State) : State :=
  mkState (f (maps s)) (document s) (leaflet s) (console s) (timers s).

Definition set_leaflet (f : World → World) (s : State) : State :=
  mkState (maps s) (document s) (f (leaflet s)) (console s) (timers s).

Definition set_console (f : list string → list string) (s : State) : State :=
  mkState (maps s) (document s) (leaflet s) (f (console s)) (timers s).

Definition set_timers (f : list Timer → list Timer) (s : State) : State :=
  mkState (maps s) (document s) (leaflet s) (console s) (f (timers s)).

Definition set_document (f : gset string → gset string) (s : State) : State :=
  mkState (maps s) (f (document s)) (leaflet s) (console s) (timers s).

(** ** The monad of a JavaScript call *)

Inductive result (A : Type) : Type :=
  | Ok (a : A)
  | Throw (e : JsError).
Arguments Ok {A} a.
Arguments Throw {A} e.

Definition M (A : Type) : Type := State → result A * State.

Definition ret {A} (a : A) : M A := λ s, (Ok a, s).

Definition bind {A B} (c : M A) (k : A → M B) : M B :=
  λ s, match c s with
       | (Ok a, s') => k a s'
       | (Throw e, s') => (Throw e, s')
       end.

Definition throw {A} (e : JsError) : M A := λ s, (Throw e, s).

Definition modify (f : State → State) : M unit := λ s, (Ok tt, f s).

Declare Scope js_scope.
Delimit Scope js_scope with js.
Notation "'let*' x := c 'in' k" := (bind c (λ x, k))
  (at level 10, x name, c at level 100, k at level 200,
   format "'[v' 'let*'  x  :=  c  'in' '/' k ']'") : js_scope.
Notation "c >> k" := (bind c (λ _, k))
  (at level 90, right associativity) : js_scope.
Local Open Scope js_scope.

(** [array.forEach(f)] for a callback that leaves [array] alone. *)
Fixpoint forEach {A} (f : A → M unit) (xs : list A) : M unit :=
  match xs with
  | [] => ret tt
  | x :: xs' => f x >> forEach f xs'
  end.

(** A property read whose receiver may be [undefined]. *)
Definition the {A} (receiver : option A) (property : string) : M A :=
  match receiver with
  | Some a => ret a
  | None =>
      throw (TypeError ("Cannot read properties of undefined (reading '"
                        +:+ property +:+ "')"))
  end.

Section Interop.

Context {lib : Leaflet}.

(** ** Collaborators *)

Definition console_error (msg : string) : M unit :=
  modify (set_console (λ log, log ++ [msg])).

(** [document.getElementById(id)], as the truth value the module tests. *)
Definition getElementById (id : string) : M bool :=
  λ s, (Ok (bool_decide (id ∈ document s)), s).

Definition setTimeout (t : Timer) : M unit :=
  modify (set_timers (λ q, q ++ [t])).

(** *** Leaflet *)

Definition stamp : M handle :=
  λ s, (Ok (w_next (leaflet s)),
        set_leaflet (λ w, mkWorld (S (w_next w)) (w_maps w) (w_layers w)
                                  (w_containers w)) s).

Definition update_map (f : LMap → LMap) (m : handle) : M unit :=
  modify (set_leaflet (λ w,
    mkWorld (w_next w) (alter f m (w_maps w)) (w_layers w)
            (w_containers w))).

Definition update_layer (f : Layer → Layer) (l : handle) : M unit :=
  modify (set_leaflet (λ w,
    mkWorld (w_next w) (w_maps w) (alter f l (w_layers w))
            (w_containers w))).

Definition new_layer (k : LayerKind) : M handle :=
  let* h := stamp in
  modify (set_leaflet (λ w,
    mkWorld (w_next w) (w_maps w) (<[h := mkLayer k None ∅]> (w_layers w))
            (w_containers w)))
  >> ret h.

(** Whether the element [id] is already the container of a map. *)
Definition hosts_map (id : string) : M bool :=
  λ s, (Ok (bool_decide (id ∈ w_containers (leaflet s))), s).

(** [L.map(id)]; Leaflet refuses a container that is not in the document,
    and one that already holds a map. *)
Definition L_map (id : string) : M handle :=
  let* present := getElementById id in
  if present then
    let* taken := hosts_map id in
    if taken then throw (Error "Map container is already initialized.")
    else
      let* h := stamp in
      modify (set_leaflet (λ w,
        mkWorld (w_next w) (<[h := mkLMap id NoView ∅]> (w_maps w))
                (w_layers w) (w_containers w ∪ {[id]})))
      >> ret h
  else throw (Error "Map container not found.").

(** [map.setView([lat, lng], zoom)], on a map that has no layer yet. *)
Definition setView (m : handle) (lat lng zoom : number) : M handle :=
  update_map (λ mp, mkLMap (m_container mp) (SetView lat lng zoom)
                           (m_layers mp)) m
  >> ret m.

Definition L_tileLayer (urlTemplate attribution : string) (maxZoom : number)
    : M handle :=
  new_layer (TileLayer urlTemplate attribution maxZoom).

(** [L.marker([lat, lng], { title })] and [L.circle([lat, lng], {...})].
    Leaflet rejects a coordinate that is not a number; the coordinates here
    are finite numbers, so both return. *)
Definition L_marker (lat lng : number) (title : jsval) : M handle :=
  new_layer (Marker lat lng title).

Definition L_circle (lat lng : number) (color fillColor : string)
    (fillOpacity radius : number) : M handle :=
  new_layer (Circle lat lng color fillColor fillOpacity radius).

(** The tile layers of map [m] load their tiles for the view the map has
    now. *)
Definition load_tiles (m : handle) : M unit :=
  λ s, match w_maps (leaflet s) !! m ≫= on_tiles with
       | Some e => (Throw e, s)
       | None => (Ok tt, s)
       end.

(** [layer.onAdd(map)], run by [map.addLayer(layer)] once the layer is
    entered among the layers of the map: a tile layer loads its tiles, a
    marker or a circle is drawn. *)
Definition onAdd (l m : handle) : M unit :=
  λ s, match l_kind <$> w_layers (leaflet s) !! l with
       | Some (TileLayer _ _ _) => load_tiles m s
       | _ => (Ok tt, s)
       end.

(** [layer.addTo(map)] is [map.addLayer(layer); return layer], so an
    [undefined] map is a [TypeError]. *)
Definition addTo (l : handle) (target : option handle) : M handle :=
  let* m := the target "addLayer" in
  update_map (λ mp, mkLMap (m_container mp) (m_view mp)
                           (m_layers mp ∪ {[l]})) m >>
  update_layer (λ ly, mkLayer (l_kind ly) (l_popup ly)
                              (l_added_to ly ∪ {[m]})) l >>
  onAdd l m >>
  ret l.

Definition bindPopup (l : handle) (content : jsval) : M handle :=
  update_layer (λ ly, mkLayer (l_kind ly) (Some content) (l_added_to ly)) l
  >> ret l.

(** [map.removeLayer(layer)] *)
Definition removeLayer (target : option handle) (l : handle) : M unit :=
  let* m := the target "removeLayer" in
  update_map (λ mp, mkLMap (m_container mp) (m_view mp)
                           (m_layers mp ∖ {[l]})) m.

(** [L.featureGroup(layers).getBounds()] *)
Definition featureGroup_getBounds (ls : list handle) : M Bounds :=
  λ s, match on_bounds (leaflet s) ls with
       | Some e => (Throw e, s)
       | None => (Ok (GroupBounds ls), s)
       end.

(** [map.fitBounds(bounds)]: the view changes, and the tiles are loaded
    for it. *)
Definition map_fitBounds (target : option handle) (b : Bounds) : M unit :=
  let* m := the target "fitBounds" in
  update_map (λ mp, mkLMap (m_container mp) (FitView b) (m_layers mp)) m >>
  load_tiles m.

(** ** Reading [maps[mapId]]

    [maps] is an ordinary object, so a read that finds no own property goes
    on to [Object.prototype]. *)
Definition Object_prototype : list string :=
  [ "constructor"; "hasOwnProperty"; "isPrototypeOf"; "propertyIsEnumerable";
    "toLocaleString"; "toString"; "valueOf"; "__proto__";
    "__defineGetter__"; "__defineSetter__";
    "__lookupGetter__"; "__lookupSetter__" ].

Definition inherited (mapId : string) : bool :=
  bool_decide (mapId ∈ Object_prototype).

(** What [maps[mapId]] evaluates to: nothing, an entry the module stored, or
    a member of [Object.prototype] (a function, or for [__proto__] the
    prototype object itself). *)
Inductive jsref : Type :=
  | RUndefined
  | RMapData (d : MapData)
  | RInherited (name : string).

Definition maps_get (mapId : string) : M jsref :=
  λ s, (Ok match maps s !! mapId with
           | Some d => RMapData d
           | None => if inherited mapId then RInherited mapId else RUndefined
           end, s).

(** Objects and functions are truthy. *)
Definition ref_truthy (r : jsref) : bool :=
  match r with
  | RUndefined => false
  | _ => true
  end.

(** [mapData.map] and [mapData.layers]; the inherited members have neither
    property.  Both are read only behind the [!mapData] guard. *)
Definition ref_map (r : jsref) : option handle :=
  match r with
  | RMapData d => Some (md_map d)
  | _ => None
  end.

Definition ref_layers (r : jsref) : option (list handle) :=
  match r with
  | RMapData d => Some (md_layers d)
  | _ => None
  end.

(** An entry is referenced from its slot of [maps] and, while a call runs,
    from the local [mapData]; a write through [mapData] is a write to the
    slot. *)
Definition layers_push (mapId : string) (mapData : jsref) (l : handle)
    : M unit :=
  the (ref_layers mapData) "push" >>
  modify (set_maps (alter (λ d, mkMapData (md_map d) (md_layers d ++ [l]))
                          mapId)).

(** [mapData.layers = value] *)
Definition layers_assign (mapId : string) (value : list handle) : M unit :=
  modify (set_maps (alter (λ d, mkMapData (md_map d) value) mapId)).

(** ** The exported functions *)

Definition msg_element_not_found (mapId : string) : string :=
  "Map element with ID '" +:+ mapId +:+ "' not found".

Definition msg_not_initialized (mapId : string) : string :=
  "Map '" +:+ mapId +:+ "' not initialized".

Definition osm_url : string :=
  "https://{s}.tile.openstreetmap.org/{z}/{x}/{y}.png".

Definition osm_attribution : string :=
  "&copy; <a href=" +:+ String (Ascii.ascii_of_nat 34)
    "https://www.openstreetmap.org/copyright" +:+
  String (Ascii.ascii_of_nat 34) "" +:+ ">OpenStreetMap</a> contributors".

(** The body of the arrow function of [initializeMap]. *)
Definition initializeMap_deferred (mapId : string)
    (latitude longitude zoom : number) : M unit :=
  let* element := getElementById mapId in
  if negb element then console_error (msg_element_not_found mapId)
  else
    let* existing := maps_get mapId in
    if negb (ref_truthy existing) then
      let* created := L_map mapId in
      let* map := setView created latitude longitude zoom in
      let* tiles := L_tileLayer osm_url osm_attribution 18%Q in
      addTo tiles (Some map) >>
      modify (set_maps <[mapId := mkMapData map []]>)
    else ret tt.

Definition initializeMap (mapId : string) (latitude longitude zoom : number)
    : M unit :=
  setTimeout (mkTimer 100%Q mapId latitude longitude zoom).

Definition addMarker (mapId : string) (latitude longitude : number)
    (title popupContent : jsval) : M unit :=
  let* mapData := maps_get mapId in
  if negb (ref_truthy mapData) then console_error (msg_not_initialized mapId)
  else
    let* created := L_marker latitude longitude title in
    let* marker := addTo created (ref_map mapData) in
    (if truthy popupContent then bindPopup marker popupContent
     else ret marker) >>
    layers_push mapId mapData marker.

Record MarkerData : Type := mkMarkerData {
  lat : number;
  lng : number;
  title : jsval;
  popup : jsval
}.

Definition addMarkers (mapId : string) (markers : list MarkerData) : M unit :=
  let* mapData := maps_get mapId in
  if negb (ref_truthy mapData) then console_error (msg_not_initialized mapId)
  else
    forEach (λ markerData,
      let* created :=
        L_marker (lat markerData) (lng markerData)
                 (js_or (title markerData) (JStr "")) in
      let* marker := addTo created (ref_map mapData) in
      (if truthy (popup markerData) then bindPopup marker (popup markerData)
       else ret marker) >>
      layers_push mapId mapData marker) markers.

Definition addCircle (mapId : string) (latitude longitude radius : number)
    (color fillColor : string) (fillOpacity : number) : M unit :=
  let* mapData := maps_get mapId in
  if negb (ref_truthy mapData) then console_error (msg_not_initialized mapId)
  else
    let* created :=
      L_circle latitude longitude color fillColor fillOpacity radius in
    let* circle := addTo created (ref_map mapData) in
    layers_push mapId mapData circle.

Definition clearMap (mapId : string) : M unit :=
  let* mapData := maps_get mapId in
  if negb (ref_truthy mapData) then console_error (msg_not_initialized mapId)
  else
    let* layers := the (ref_layers mapData) "forEach" in
    forEach (λ layer, removeLayer (ref_map mapData) layer) layers >>
    layers_assign mapId [].

Definition fitBounds (mapId : string) : M unit :=
  let* mapData := maps_get mapId in
  if negb (ref_truthy mapData) then console_error (msg_not_initialized mapId)
  else
    let* layers := the (ref_layers mapData) "length" in
    if bool_decide (0 < length layers) then
      let* bounds := featureGroup_getBounds layers in
      map_fitBounds (ref_map mapData) (Pad bounds 0.1%Q)
    else ret tt.

(** ** The event loop

    Between two calls the host may mount or unmount elements, and the
    oldest pending timer may fire; every timer of the module has the same
    delay, so they fire in the order they were set. *)

(** The host puts an element [id] on the page.  If there is one already,
    [getElementById] keeps finding that one; a new element holds no map. *)
Definition mount (id : string) (s : State) : State :=
  if bool_decide (id ∈ document s) then s
  else
    set_document (λ d, d ∪ {[id]})
      (set_leaflet (λ w, mkWorld (w_next w) (w_maps w) (w_layers w)
                                 (w_containers w ∖ {[id]})) s).

(** The host takes the element [id] off the page, with what it held. *)
Definition unmount (id : string) (s : State) : State :=
  set_document (λ d, d ∖ {[id]})
    (set_leaflet (λ w, mkWorld (w_next w) (w_maps w) (w_layers w)
                               (w_containers w ∖ {[id]})) s).

Definition run_timer (t : Timer) : M unit :=
  initializeMap_deferred (t_mapId t) (t_latitude t) (t_longitude t) (t_zoom t).

Definition fire : M unit :=
  λ s, match timers s with
       | [] => (Ok tt, s)
       | t :: q => run_timer t (set_timers (λ _, q) s)
       end.

Inductive Action : Type :=
  | CallInitializeMap (mapId : string) (latitude longitude zoom : number)
  | CallAddMarker (mapId : string) (latitude longitude : number)
                  (title popupContent : jsval)
  | CallAddMarkers (mapId : string) (markers : list MarkerData)
  | CallAddCircle (mapId : string) (latitude longitude radius : number)
                  (color fillColor : string) (fillOpacity : number)
  | CallClearMap (mapId : string)
  | CallFitBounds (mapId : string)
  | Fire
  | Mount (id : string)
  | Unmount (id : string).

Definition perform (a : Action) : M unit :=
  match a with
  | CallInitializeMap i la lo z => initializeMap i la lo z
  | CallAddMarker i la lo t p => addMarker i la lo t p
  | CallAddMarkers i ms => addMarkers i ms
  | CallAddCircle i la lo r c f o => addCircle i la lo r c f o
  | CallClearMap i => clearMap i
  | CallFitBounds i => fitBounds i
  | Fire => fire
  | Mount i => modify (mount i)
  | Unmount i => modify (unmount i)
  end.

(** The state an action leaves behind, whether it returned or threw. *)
Definition step (s : State) (a : Action) : State := (perform a s).2.

Definition run (s : State) (acts : list Action) : State := foldl step s acts.

(** The page as loaded: [let maps = {}], nothing mounted, Leaflet idle. *)
Definition initial : State :=
  mkState ∅ ∅ (mkWorld 0 ∅ ∅ ∅) [] [].

(** * The calls as functions on states

    Each exported function, on each of the three outcomes of
    [maps[mapId]], comes down to one of the state transformers below; the
    lemmas of the next part say which. *)

(** Unfold one call down to the collaborators. *)
Ltac js_unfold :=
  unfold initializeMap_deferred, initializeMap, addMarker, addMarkers,
    addCircle, clearMap, fitBounds, layers_push, layers_assign,
    L_marker, L_circle, L_tileLayer, L_map, hosts_map, new_layer, addTo,
    onAdd, load_tiles, featureGroup_getBounds, bindPopup,
    removeLayer, map_fitBounds, setView, update_map, update_layer, stamp,
    console_error, getElementById, setTimeout, the,
    bind, ret, throw, modify.

(** What the guard [if (!mapData)] does when it fires: one line on the
    diagnostic channel, nothing else. *)
Definition reported (msg : string) (s : State) : result unit * State :=
  (Ok tt, set_console (λ log, log ++ [msg]) s).

(** ** What one insertion does

    [addMarker], [addCircle] and every round of [addMarkers] run the same
    four steps on an entry: create a layer, attach it to the entry's map,
    perhaps bind a popup, push the handle.  [place] is their sum. *)
Definition push (h : handle) (d : MapData) : MapData :=
  mkMapData (md_map d) (md_layers d ++ [h]).

Definition attach (h : handle) (mp : LMap) : LMap :=
  mkLMap (m_container mp) (m_view mp) (m_layers mp ∪ {[h]}).

Definition place (k : LayerKind) (p : option jsval) (mapId : string)
    (m : handle) (s : State) : State :=
  let h := w_next (leaflet s) in
  mkState (alter (push h) mapId (maps s)) (document s)
    (mkWorld (S h) (alter (attach h) m (w_maps (leaflet s)))
       (<[h := mkLayer k p {[m]}]> (w_layers (leaflet s)))
       (w_containers (leaflet s)))
    (console s) (timers s).

(** The popup a marker ends up with, given the [popupContent] argument. *)
Definition popup_of (p : jsval) : option jsval :=
  if truthy p then Some p else None.

(** The marker [addMarkers] makes of one record. *)
Definition place_marker (mapId : string) (m : handle) (s : State)
    (md : MarkerData) : State :=
  place (Marker (lat md) (lng md) (js_or (title md) (JStr "")))
        (popup_of (popup md)) mapId m s.

(** ** What [clearMap], [fitBounds] and the deferred body of
    [initializeMap] do *)

Definition detach_all (ls : list handle) (mp : LMap) : LMap :=
  mkLMap (m_container mp) (m_view mp) (m_layers mp ∖ list_to_set ls).

Definition cleared (mapId : string) (d : MapData) (s : State) : State :=
  mkState (alter (λ d, mkMapData (md_map d) []) mapId (maps s)) (document s)
    (mkWorld (w_next (leaflet s))
       (alter (detach_all (md_layers d)) (md_map d) (w_maps (leaflet s)))
       (w_layers (leaflet s)) (w_containers (leaflet s)))
    (console s) (timers s).

Definition fit (b : Bounds) (mp : LMap) : LMap :=
  mkLMap (m_container mp) (FitView b) (m_layers mp).

Definition fitted (d : MapData) (s : State) : State :=
  set_leaflet (λ w,
    mkWorld (w_next w)
      (alter (fit (Pad (GroupBounds (md_layers d)) 0.1%Q)) (md_map d)
             (w_maps w))
      (w_layers w) (w_containers w)) s.

(** What [fitBounds] comes to on an entry: nothing for an empty [layers];
    otherwise the region is asked for, then the view is set and the tiles
    are loaded, and Leaflet may throw at either step. *)
Definition fit_outcome (d : MapData) (s : State) : result unit * State :=
  if bool_decide (0 < length (md_layers d)) then
    match on_bounds (leaflet s) (md_layers d) with
    | Some e => (Throw e, s)
    | None =>
        match w_maps (leaflet (fitted d s)) !! md_map d ≫= on_tiles with
        | Some e => (Throw e, fitted d s)
        | None => (Ok tt, fitted d s)
        end
    end
  else (Ok tt, s).

(** The map of [initializeMap] with its view and its tile layer, before
    the entry is stored. *)
Definition new_map (mapId : string) (la lo z : number) (n : handle) : LMap :=
  mkLMap mapId (SetView la lo z) {[S n]}.

(** A map that was made but whose entry was not stored, because loading
    the tiles threw. *)
Definition stranded (mapId : string) (la lo z : number) (s : State) : State :=
  let n := w_next (leaflet s) in
  mkState (maps s) (document s)
    (mkWorld (S (S n))
       (<[n := new_map mapId la lo z n]> (w_maps (leaflet s)))
       (<[S n := mkLayer (TileLayer osm_url osm_attribution 18%Q) None {[n]}]>
          (w_layers (leaflet s)))
       (w_containers (leaflet s) ∪ {[mapId]}))
    (console s) (timers s).

Definition created (mapId : string) (la lo z : number) (s : State) : State :=
  let n := w_next (leaflet s) in
  mkState (<[mapId := mkMapData n []]> (maps s)) (document s)
    (mkWorld (S (S n))
       (<[n := mkLMap mapId (SetView la lo z) {[S n]}]> (w_maps (leaflet s)))
       (<[S n := mkLayer (TileLayer osm_url osm_attribution 18%Q) None {[n]}]>
          (w_layers (leaflet s)))
       (w_containers (leaflet s) ∪ {[mapId]}))
    (console s) (timers s).

(** What the deferred body of [initializeMap] comes to once the element
    is found and [maps[mapId]] is empty. *)
Definition creation (mapId : string) (la lo z : number) (s : State)
    : result unit * State :=
  if bool_decide (mapId ∈ w_containers (leaflet s)) then
    (Throw (Error "Map container is already initialized."), s)
  else
    match on_tiles (new_map mapId la lo z (w_next (leaflet s))) with
    | Some e => (Throw e, stranded mapId la lo z s)
    | None => (Ok tt, created mapId la lo z s)
    end.

(** ** Sample pages *)

(** A page on which the element [m1] is mounted and nothing has been
    called yet. *)
Definition page_mounted : State := run initial [ Mount "m1" ].

(** The same page once [initializeMap("m1", 51.5, -0.1, 13)] has been
    called and its timer has fired. *)
Definition page_m1 : State :=
  run page_mounted [ CallInitializeMap "m1" 51.5%Q (-0.1)%Q 13%Q; Fire ].

(** ** What a call does that gets past the guard on an inherited name *)

(** A layer that was created and then left unattached, because [addTo]
    threw. *)
Definition orphan (k : LayerKind) (s : State) : State :=
  set_leaflet (λ w,
    mkWorld (S (w_next w)) (w_maps w)
            (<[w_next w := mkLayer k None ∅]> (w_layers w))
            (w_containers w)) s.

Definition no_addLayer : JsError :=
  TypeError "Cannot read properties of undefined (reading 'addLayer')".

(** ** Effects on the registry and Leaflet *)

(** Same registry, same maps and layers in Leaflet; the page, the console
    and the timer queue may differ. *)
Definition same_core (s s' : State) : Prop :=
  maps s' = maps s ∧
  w_next (leaflet s') = w_next (leaflet s) ∧
  w_maps (leaflet s') = w_maps (leaflet s) ∧
  w_layers (leaflet s') = w_layers (leaflet s).

Inductive effect (s : State) : State → Prop :=
  | eff_none s' :
      same_core s s' → effect s s'
  | eff_place k p mapId d s' :
      is_overlay k = true → maps s !! mapId = Some d →
      same_core (place k p mapId (md_map d) s) s' → effect s s'
  | eff_orphan k s' :
      same_core (orphan k s) s' → effect s s'
  | eff_cleared mapId d s' :
      maps s !! mapId = Some d →
      same_core (cleared mapId d s) s' → effect s s'
  | eff_fitted mapId d s' :
      maps s !! mapId = Some d →
      same_core (fitted d s) s' → effect s s'
  | eff_created mapId la lo z s' :
      maps s !! mapId = None →
      same_core (created mapId la lo z s) s' → effect s s'
  | eff_stranded mapId la lo z s' :
      same_core (stranded mapId la lo z s) s' → effect s s'.

(** ** The registry invariant *)

(** What holds of the registry and Leaflet between any two actions:
    handles are stamps already given out; every entry owns a map that sits
    in the element named by the entry's key and carries a tile layer; every
    handle in an entry's [layers] is a marker or a circle that was added to
    the entry's map, to no other map, and is on that map now. *)
Record registry_ok (s : State) : Prop := mkRegistryOk {
  ok_maps_stamped :
    ∀ h, is_Some (w_maps (leaflet s) !! h) → h < w_next (leaflet s);
  ok_layers_stamped :
    ∀ h, is_Some (w_layers (leaflet s) !! h) → h < w_next (leaflet s);
  ok_entry :
    ∀ mapId d, maps s !! mapId = Some d →
      ∃ mp t ly,
        w_maps (leaflet s) !! md_map d = Some mp ∧ m_container mp = mapId ∧
        t ∈ m_layers mp ∧ w_layers (leaflet s) !! t = Some ly ∧
        is_overlay (l_kind ly) = false;
  ok_layers :
    ∀ mapId d h, maps s !! mapId = Some d → h ∈ md_layers d →
      ∃ ly mp,
        w_layers (leaflet s) !! h = Some ly ∧
        is_overlay (l_kind ly) = true ∧
        l_added_to ly = {[md_map d]} ∧
        w_maps (leaflet s) !! md_map d = Some mp ∧ h ∈ m_layers mp
}.

(** A page with two maps, a marker on the first and a circle on the
    second. *)
Definition two_maps_actions : list Action :=
  [ Mount "m1"; Mount "m2";
    CallInitializeMap "m1" 51.5%Q (-0.1)%Q 13%Q;
    CallInitializeMap "m2" 10%Q 20%Q 5%Q;
    Fire; Fire;
    CallAddMarker "m1" 1%Q 2%Q (JStr "t") (JStr "p");
    CallAddCircle "m2" 10%Q 20%Q 500%Q "red" "red" 0.3%Q ].

(** A page whose map [m1] carries a circle at a longitude of 1e308
    degrees. *)
Definition far_circle_actions : list Action :=
  [ Mount "m1"; CallInitializeMap "m1" 51.5%Q (-0.1)%Q 13%Q; Fire;
    CallAddCircle "m1" 0%Q 1e308%Q 500%Q "red" "red" 0.3%Q ].

(** Every entry of [s] is still there in [s'], with the same map. *)
Definition keeps_entries (s s' : State) : Prop :=
  ∀ mapId d, maps s !! mapId = Some d →
    ∃ d', maps s' !! mapId = Some d' ∧ md_map d' = md_map d.

(** ** Which entry a call is about *)

(** The identifier of the five calls that start with the guard
    [if (!mapData)]. *)
Definition guarded (a : Action) : option string :=
  match a with
  | CallAddMarker i _ _ _ _ => Some i
  | CallAddMarkers i _ => Some i
  | CallAddCircle i _ _ _ _ _ _ => Some i
  | CallClearMap i => Some i
  | CallFitBounds i => Some i
  | _ => None
  end.

(** What a guarded call on [mapId] may touch: the entry of [mapId], the map
    of that entry, the console (by the one line of the guard), and layers
    it stamps itself. *)
Record touches_only (mapId : string) (s s' : State) : Prop := mkTouchesOnly {
  to_document : document s' = document s;
  to_timers : timers s' = timers s;
  to_maps : ∃ f, maps s' = alter f mapId (maps s);
  to_console :
    console s' = console s ∨
    (maps s !! mapId = None ∧
     console s' = console s ++ [msg_not_initialized mapId]);
  to_layers :
    ∀ h, h < w_next (leaflet s) →
         w_layers (leaflet s') !! h = w_layers (leaflet s) !! h;
  to_world_maps :
    ∀ h, (∀ d, maps s !! mapId = Some d → md_map d ≠ h) →
         w_maps (leaflet s') !! h = w_maps (leaflet s) !! h;
  to_next : w_next (leaflet s) ≤ w_next (leaflet s')
}.

(** One round of [addMarkers], done by [addMarker]. *)
Definition addMarker_of (mapId : string) (s : State) (md : MarkerData)
    : State :=
  (addMarker mapId (lat md) (lng md) (js_or (title md) (JStr ""))
             (popup md) s).2.

(** The registry and Leaflet agree on what the module put on a map: no
    [layers] holds a handle twice; of the layers the module added to the
    map of an entry, those on it are one tile layer and, beside it, the
    handles of the entry's [layers]. *)
Record registry_tight (s : State) : Prop := mkRegistryTight {
  tight_nodup :
    ∀ mapId d, maps s !! mapId = Some d → NoDup (md_layers d);
  tight_layers :
    ∀ mapId d mp, maps s !! mapId = Some d →
      w_maps (leaflet s) !! md_map d = Some mp →
      ∃ t ly, w_layers (leaflet s) !! t = Some ly ∧
              is_overlay (l_kind ly) = false ∧
              m_layers mp = {[t]} ∪ list_to_set (md_layers d)
}.

(** * Properties *)

(** ** The three outcomes of [maps[mapId]] *)

Lemma maps_get_entry s mapId d :
  maps s !! mapId = Some d → maps_get mapId s = (Ok (RMapData d), s).
Proof. intros H. unfold maps_get. by rewrite H. Qed.

Lemma maps_get_undefined s mapId :
  maps s !! mapId = None → inherited mapId = false →
  maps_get mapId s = (Ok RUndefined, s).
Proof. intros H Hi. unfold maps_get. by rewrite H, Hi. Qed.

Lemma maps_get_inherited s mapId :
  maps s !! mapId = None → inherited mapId = true →
  maps_get mapId s = (Ok (RInherited mapId), s).
Proof. intros H Hi. unfold maps_get. by rewrite H, Hi. Qed.

Lemma state_eta s :
  mkState (maps s) (document s) (leaflet s) (console s) (timers s) = s.
Proof. by destruct s. Qed.

Lemma world_eta w :
  mkWorld (w_next w) (w_maps w) (w_layers w) (w_containers w) = w.
Proof. by destruct w. Qed.

(** ** A call on an identifier that was never initialized *)

Lemma uninitialized_reports s mapId :
  maps s !! mapId = None → inherited mapId = false →
  (∀ la lo t p,
     addMarker mapId la lo t p s = reported (msg_not_initialized mapId) s) ∧
  (∀ ms, addMarkers mapId ms s = reported (msg_not_initialized mapId) s) ∧
  (∀ la lo r c f o,
     addCircle mapId la lo r c f o s
     = reported (msg_not_initialized mapId) s) ∧
  clearMap mapId s = reported (msg_not_initialized mapId) s ∧
  fitBounds mapId s = reported (msg_not_initialized mapId) s.
Proof.
  intros H Hi.
  pose proof (maps_get_undefined s mapId H Hi) as Hget.
  repeat split; intros;
    unfold addMarker, addMarkers, addCircle, clearMap, fitBounds, bind;
    rewrite Hget; reflexivity.
Qed.

(** The guard does not fire for a name that [Object.prototype] defines:
    the read of [layers] then fails. *)
Lemma inherited_throws s mapId :
  maps s !! mapId = None → inherited mapId = true →
  clearMap mapId s
  = (Throw (TypeError
       "Cannot read properties of undefined (reading 'forEach')"), s) ∧
  fitBounds mapId s
  = (Throw (TypeError
       "Cannot read properties of undefined (reading 'length')"), s).
Proof.
  intros H Hi.
  pose proof (maps_get_inherited s mapId H Hi) as Hget.
  split; unfold clearMap, fitBounds, bind; rewrite Hget; reflexivity.
Qed.

(** ** The calls on an existing entry *)

Lemma marker_steps s mapId d la lo t p :
  (let* created := L_marker la lo t in
   let* marker := addTo created (ref_map (RMapData d)) in
   (if truthy p then bindPopup marker p else ret marker) >>
   layers_push mapId (RMapData d) marker) s
  = (Ok tt, place (Marker la lo t) (popup_of p) mapId (md_map d) s).
Proof.
  js_unfold. unfold place, popup_of, set_maps, set_leaflet. simpl.
  rewrite !alter_insert_eq, lookup_insert_eq. simpl.
  destruct (truthy p); simpl;
    rewrite ?alter_insert_eq; simpl; by rewrite union_empty_l_L.
Qed.

Lemma circle_steps s mapId d la lo c f o r :
  (let* created := L_circle la lo c f o r in
   let* circle := addTo created (ref_map (RMapData d)) in
   layers_push mapId (RMapData d) circle) s
  = (Ok tt, place (Circle la lo c f o r) None mapId (md_map d) s).
Proof.
  js_unfold. unfold place, set_maps, set_leaflet. simpl.
  rewrite !alter_insert_eq, lookup_insert_eq. simpl.
  by rewrite union_empty_l_L.
Qed.

Lemma addMarker_entry s mapId d la lo t p :
  maps s !! mapId = Some d →
  addMarker mapId la lo t p s
  = (Ok tt, place (Marker la lo t) (popup_of p) mapId (md_map d) s).
Proof.
  intros H. unfold addMarker. unfold bind at 1.
  rewrite (maps_get_entry _ _ _ H). simpl. apply marker_steps.
Qed.

Lemma addCircle_entry s mapId d la lo r c f o :
  maps s !! mapId = Some d →
  addCircle mapId la lo r c f o s
  = (Ok tt, place (Circle la lo c f o r) None mapId (md_map d) s).
Proof.
  intros H. unfold addCircle. unfold bind at 1.
  rewrite (maps_get_entry _ _ _ H). simpl. apply circle_steps.
Qed.

Lemma place_keeps_entry k p mapId m s d :
  maps s !! mapId = Some d →
  maps (place k p mapId m s) !! mapId
  = Some (push (w_next (leaflet s)) d).
Proof. intros H. simpl. by rewrite lookup_alter_eq, H. Qed.

Lemma forEach_markers mapId d0 ms : ∀ s d,
  maps s !! mapId = Some d → md_map d = md_map d0 →
  forEach (λ markerData,
      let* created :=
        L_marker (lat markerData) (lng markerData)
                 (js_or (title markerData) (JStr "")) in
      let* marker := addTo created (ref_map (RMapData d0)) in
      (if truthy (popup markerData) then bindPopup marker (popup markerData)
       else ret marker) >>
      layers_push mapId (RMapData d0) marker) ms s
  = (Ok tt, foldl (place_marker mapId (md_map d0)) s ms).
Proof.
  induction ms as [|md ms IH]; intros s d H Hm; [done|].
  cbn [forEach foldl]. unfold bind at 1.
  rewrite marker_steps.
  eapply IH; [by apply place_keeps_entry|done].
Qed.

Lemma addMarkers_entry s mapId d ms :
  maps s !! mapId = Some d →
  addMarkers mapId ms s
  = (Ok tt, foldl (place_marker mapId (md_map d)) s ms).
Proof.
  intros H. unfold addMarkers. unfold bind at 1.
  rewrite (maps_get_entry _ _ _ H). simpl. by eapply forEach_markers.
Qed.

(** The state after [addMarkers] has gone through [ms]: the handles are the
    stamps [n], [n+1], ... in the order of [ms]. *)
Lemma place_markers_shape mapId m ms : ∀ s,
  let s' := foldl (place_marker mapId m) s ms in
  let n := w_next (leaflet s) in
  maps s' = alter (λ d, mkMapData (md_map d)
                          (md_layers d ++ seq n (length ms))) mapId (maps s) ∧
  w_next (leaflet s') = n + length ms ∧
  w_maps (leaflet s')
    = alter (λ mp, mkLMap (m_container mp) (m_view mp)
                     (m_layers mp ∪ list_to_set (seq n (length ms))))
        m (w_maps (leaflet s)) ∧
  (∀ h, h < n → w_layers (leaflet s') !! h = w_layers (leaflet s) !! h) ∧
  (∀ i md, ms !! i = Some md →
     w_layers (leaflet s') !! (n + i)
     = Some (mkLayer (Marker (lat md) (lng md) (js_or (title md) (JStr "")))
                     (popup_of (popup md)) {[m]})) ∧
  document s' = document s ∧ console s' = console s ∧ timers s' = timers s.
Proof.
  induction ms as [|md ms IH]; intros s; cbn zeta.
  - cbn [foldl length seq]. repeat split; try done.
    + symmetry. apply alter_id. intros [] _. simpl. by rewrite app_nil_r.
    + symmetry. apply alter_id. intros [] _. simpl.
      f_equal. set_solver.
  - cbn [foldl].
    destruct (IH (place_marker mapId m s md))
      as (Hmaps & Hnext & Hwm & Hold & Hnew & Hdoc & Hcon & Htim).
    cbn [place_marker place leaflet w_next maps w_maps w_layers document
         console timers] in *.
    repeat split.
    + rewrite Hmaps, alter_alter_eq. apply alter_ext. intros [] _.
      unfold push. simpl. by rewrite <- app_assoc.
    + rewrite Hnext. cbn [length]. lia.
    + rewrite Hwm, alter_alter_eq. apply alter_ext. intros [] _.
      unfold attach. simpl. f_equal. set_solver.
    + intros h Hh. rewrite Hold by lia. apply lookup_insert_ne. lia.
    + intros [|i] md' Hi; simpl in Hi.
      * injection Hi as <-. rewrite Nat.add_0_r, Hold by lia.
        apply lookup_insert_eq.
      * replace (w_next (leaflet s) + S i) with (S (w_next (leaflet s)) + i)
          by lia.
        by apply Hnew.
    + done.
    + done.
    + done.
Qed.

Lemma forEach_removeLayer m ls : ∀ s,
  forEach (λ layer, removeLayer (Some m) layer) ls s
  = (Ok tt, set_leaflet (λ w,
      mkWorld (w_next w) (alter (detach_all ls) m (w_maps w)) (w_layers w)
              (w_containers w)) s).
Proof.
  induction ls as [|l ls IH]; intros s.
  - cbn [forEach]. unfold ret, set_leaflet. do 2 f_equal.
    rewrite alter_id, world_eta; [by rewrite state_eta|].
    intros [] _. unfold detach_all. simpl. f_equal. set_solver.
  - cbn [forEach]. unfold bind at 1. js_unfold. rewrite IH.
    unfold set_leaflet. simpl. do 3 f_equal.
    rewrite alter_alter_eq. apply alter_ext. intros [] _.
    unfold detach_all. simpl. f_equal. set_solver.
Qed.

Lemma clearMap_entry s mapId d :
  maps s !! mapId = Some d → clearMap mapId s = (Ok tt, cleared mapId d s).
Proof.
  intros H. unfold clearMap. unfold bind at 1.
  rewrite (maps_get_entry _ _ _ H). simpl.
  unfold bind at 1. unfold ret at 1. unfold bind at 1.
  rewrite forEach_removeLayer. reflexivity.
Qed.

Lemma fitBounds_entry s mapId d :
  maps s !! mapId = Some d → fitBounds mapId s = fit_outcome d s.
Proof.
  intros H. unfold fitBounds. unfold bind at 1.
  rewrite (maps_get_entry _ _ _ H). simpl.
  unfold bind at 1. unfold ret at 1. unfold fit_outcome.
  case_bool_decide; [|done].
  unfold bind at 1, featureGroup_getBounds.
  destruct (on_bounds (leaflet s) (md_layers d)); [done|].
  unfold map_fitBounds, the, bind, ret, update_map, modify, load_tiles.
  reflexivity.
Qed.

Lemma deferred_absent s mapId la lo z :
  mapId ∉ document s →
  initializeMap_deferred mapId la lo z s
  = reported (msg_element_not_found mapId) s.
Proof.
  intros H. unfold initializeMap_deferred, bind, getElementById.
  by rewrite bool_decide_eq_false_2.
Qed.

Lemma deferred_truthy s mapId la lo z :
  mapId ∈ document s →
  is_Some (maps s !! mapId) ∨ inherited mapId = true →
  initializeMap_deferred mapId la lo z s = (Ok tt, s).
Proof.
  intros H Ht. unfold initializeMap_deferred, bind, getElementById, maps_get.
  rewrite bool_decide_eq_true_2 by done. simpl.
  destruct (maps s !! mapId) eqn:E; [done|].
  destruct Ht as [[? ?]| ->]; done.
Qed.

Lemma deferred_undefined s mapId la lo z :
  mapId ∈ document s →
  maps s !! mapId = None → inherited mapId = false →
  initializeMap_deferred mapId la lo z s = creation mapId la lo z s.
Proof.
  intros H Hn Hi. unfold initializeMap_deferred. unfold bind at 1.
  unfold getElementById at 1. rewrite bool_decide_eq_true_2 by done. simpl.
  unfold bind at 1. rewrite (maps_get_undefined _ _ Hn Hi). simpl.
  unfold creation. js_unfold.
  unfold stranded, created, new_map, set_maps, set_leaflet. simpl.
  rewrite bool_decide_eq_true_2 by done. simpl.
  case_bool_decide; [done|]. simpl.
  rewrite !alter_insert_eq, !lookup_insert_eq. simpl.
  rewrite !union_empty_l_L.
  destruct (on_tiles _); reflexivity.
Qed.

Lemma deferred_creates s mapId la lo z :
  mapId ∈ document s →
  maps s !! mapId = None → inherited mapId = false →
  mapId ∉ w_containers (leaflet s) →
  on_tiles (new_map mapId la lo z (w_next (leaflet s))) = None →
  initializeMap_deferred mapId la lo z s = (Ok tt, created mapId la lo z s).
Proof.
  intros H Hn Hi Hc Ht. rewrite deferred_undefined by done.
  unfold creation. rewrite bool_decide_eq_false_2 by done. by rewrite Ht.
Qed.

(** The deferred body of [initializeMap] leaves the state alone, or
    reports the missing element, or goes on to make the map. *)
Lemma deferred_cases s mapId la lo z :
  (initializeMap_deferred mapId la lo z s = (Ok tt, s)) ∨
  ((mapId ∉ document s) ∧
   initializeMap_deferred mapId la lo z s
   = reported (msg_element_not_found mapId) s) ∨
  (mapId ∈ document s ∧ maps s !! mapId = None ∧ inherited mapId = false ∧
   initializeMap_deferred mapId la lo z s = creation mapId la lo z s).
Proof.
  destruct (decide (mapId ∈ document s)) as [Hd|Hd].
  - destruct (maps s !! mapId) as [d|] eqn:E.
    + left. apply deferred_truthy; eauto.
    + destruct (inherited mapId) eqn:Hi.
      * left. apply deferred_truthy; eauto.
      * right. right. repeat split; try done. by apply deferred_undefined.
  - right. left. split; [done|]. by apply deferred_absent.
Qed.

(** Making the map ends in one of three ways. *)
Lemma creation_cases s mapId la lo z :
  (∃ e, creation mapId la lo z s = (Throw e, s)) ∨
  (∃ e, creation mapId la lo z s = (Throw e, stranded mapId la lo z s)) ∨
  ((mapId ∉ w_containers (leaflet s)) ∧
   on_tiles (new_map mapId la lo z (w_next (leaflet s))) = None ∧
   creation mapId la lo z s = (Ok tt, created mapId la lo z s)).
Proof.
  unfold creation. case_bool_decide; [left; by eexists|].
  destruct (on_tiles _) eqn:E; [right; left; by eexists|].
  right. right. done.
Qed.

(** The states the deferred body can leave behind. *)
Lemma deferred_state s mapId la lo z :
  let s' := (initializeMap_deferred mapId la lo z s).2 in
  s' = s ∨
  s' = set_console (λ log, log ++ [msg_element_not_found mapId]) s ∨
  (maps s !! mapId = None ∧ inherited mapId = false ∧
   (s' = stranded mapId la lo z s ∨ s' = created mapId la lo z s)).
Proof.
  cbn zeta.
  destruct (deferred_cases s mapId la lo z) as [->|[[_ ->]|(_ & Hn & Hi & ->)]];
    [by left|right; by left|].
  destruct (creation_cases s mapId la lo z) as [[e ->]|[[e ->]|(_ & _ & ->)]];
    [by left| |]; right; right; repeat split; try done; [by left|by right].
Qed.

(** ** Calls before initialization *)

(** C1, at the identifier [constructor] on a freshly loaded page: the
    registry has no entry for it, yet [maps["constructor"]] evaluates to the
    inherited function [Object], the guard [if (!mapData)] is passed, nothing
    is reported, and the call ends in a [TypeError]. *)
Theorem uninitialized_constructor_throws :
  maps initial !! "constructor" = None ∧
  clearMap "constructor" initial
  = (Throw (TypeError
       "Cannot read properties of undefined (reading 'forEach')"), initial) ∧
  fitBounds "constructor" initial
  = (Throw (TypeError
       "Cannot read properties of undefined (reading 'length')"), initial) ∧
  (addMarker "constructor" 1%Q 2%Q (JStr "t") (JStr "p") initial).1
  = Throw (TypeError
       "Cannot read properties of undefined (reading 'addLayer')") ∧
  (addMarkers "constructor" [mkMarkerData 1%Q 2%Q JUndefined JUndefined]
     initial).1
  = Throw (TypeError
       "Cannot read properties of undefined (reading 'addLayer')") ∧
  (addCircle "constructor" 1%Q 2%Q 500%Q "red" "red" 0.3%Q initial).1
  = Throw (TypeError
       "Cannot read properties of undefined (reading 'addLayer')") ∧
  console (addMarker "constructor" 1%Q 2%Q (JStr "t") (JStr "p") initial).2
  = [].
Proof. repeat split; vm_compute; reflexivity. Qed.

(** ** [initializeMap] *)

(** C6: when the deferred attempt of [initializeMap] runs and the element is
    still absent, the error is reported on the console and nothing else
    changes: no map is made, no entry is stored. *)
Theorem deferred_surface_absent s mapId la lo z q :
  timers s = mkTimer 100%Q mapId la lo z :: q →
  mapId ∉ document s →
  ∃ s', fire s = (Ok tt, s') ∧
    console s' = console s ++ [msg_element_not_found mapId] ∧
    maps s' = maps s ∧ leaflet s' = leaflet s ∧
    document s' = document s ∧ timers s' = q.
Proof.
  intros Ht Hd. eexists. split.
  - unfold fire. rewrite Ht. unfold run_timer. simpl.
    by apply deferred_absent.
  - done.
Qed.


(** Once an identifier has an entry, neither the call nor its deferred body
    touches the registry or Leaflet, whatever the page looks like by then. *)
Lemma reinitialize_noop s mapId d la lo z :
  maps s !! mapId = Some d →
  maps (initializeMap mapId la lo z s).2 = maps s ∧
  leaflet (initializeMap mapId la lo z s).2 = leaflet s ∧
  maps (initializeMap_deferred mapId la lo z s).2 = maps s ∧
  leaflet (initializeMap_deferred mapId la lo z s).2 = leaflet s.
Proof.
  intros H. split; [done|]. split; [done|].
  destruct (decide (mapId ∈ document s)) as [Hd|Hd].
  - rewrite deferred_truthy; eauto.
  - by rewrite deferred_absent.
Qed.

(** ** Adding layers *)

(** C9: on an existing entry [addMarker] appends the new marker to [layers]
    in every case, and the marker carries a popup exactly when
    [popupContent] is truthy; the empty string, [null] and [undefined] give
    a marker without popup. *)
Theorem addMarker_popup s mapId d la lo t p :
  maps s !! mapId = Some d →
  let h := w_next (leaflet s) in
  ∃ s' ly,
    addMarker mapId la lo t p s = (Ok tt, s') ∧
    maps s' !! mapId = Some (mkMapData (md_map d) (md_layers d ++ [h])) ∧
    w_layers (leaflet s') !! h = Some ly ∧
    l_kind ly = Marker la lo t ∧
    l_added_to ly = {[md_map d]} ∧
    (is_Some (l_popup ly) ↔ truthy p = true) ∧
    (truthy p = true → l_popup ly = Some p) ∧
    (p = JStr "" ∨ p = JNull ∨ p = JUndefined → l_popup ly = None).
Proof.
  intros H h. eexists _, _. split; [by apply addMarker_entry|].
  split; [by apply place_keeps_entry|].
  split; [cbn; by rewrite lookup_insert_eq|].
  cbn. unfold popup_of. repeat split.
  - destruct (truthy p); [done|]. by intros [? ?].
  - intros ->. by eexists.
  - by intros ->.
  - by intros [->|[->| ->]].
Qed.

(** C4: on an existing entry [addMarkers] returns normally and appends to
    [layers], behind what was there, one handle per record of [markers]:
    as many handles as records, all stamped during the call, pairwise
    distinct, the i-th handle being the marker made of the i-th record and
    attached to the entry's map. *)
Theorem addMarkers_appends s mapId d markers :
  maps s !! mapId = Some d →
  ∃ s' hs,
    addMarkers mapId markers s = (Ok tt, s') ∧
    maps s' !! mapId = Some (mkMapData (md_map d) (md_layers d ++ hs)) ∧
    length hs = length markers ∧
    NoDup hs ∧
    (∀ i md, markers !! i = Some md →
       ∃ h, hs !! i = Some h ∧
            w_next (leaflet s) ≤ h < w_next (leaflet s') ∧
            w_layers (leaflet s') !! h
            = Some (mkLayer
                      (Marker (lat md) (lng md) (js_or (title md) (JStr "")))
                      (popup_of (popup md)) {[md_map d]})).
Proof.
  intros H.
  destruct (place_markers_shape mapId (md_map d) markers s)
    as (Hmaps & Hnext & _ & _ & Hnew & _).
  exists (foldl (place_marker mapId (md_map d)) s markers),
         (seq (w_next (leaflet s)) (length markers)).
  split; [by apply addMarkers_entry|].
  split; [by rewrite Hmaps, lookup_alter_eq, H|].
  split; [by rewrite length_seq|].
  split; [apply NoDup_seq|].
  intros i md Hi. exists (w_next (leaflet s) + i).
  pose proof (lookup_lt_Some _ _ _ Hi) as Hlt.
  split; [by apply lookup_seq|].
  split; [rewrite Hnext; lia|]. by apply Hnew.
Qed.

(** ** The steps of the page as effects *)

Lemma addMarker_inherited s mapId la lo t p :
  maps s !! mapId = None → inherited mapId = true →
  addMarker mapId la lo t p s = (Throw no_addLayer, orphan (Marker la lo t) s).
Proof.
  intros H Hi. unfold addMarker. unfold bind at 1.
  by rewrite (maps_get_inherited _ _ H Hi).
Qed.

Lemma addCircle_inherited s mapId la lo r c f o :
  maps s !! mapId = None → inherited mapId = true →
  addCircle mapId la lo r c f o s
  = (Throw no_addLayer, orphan (Circle la lo c f o r) s).
Proof.
  intros H Hi. unfold addCircle. unfold bind at 1.
  by rewrite (maps_get_inherited _ _ H Hi).
Qed.

Lemma addMarkers_inherited s mapId ms :
  maps s !! mapId = None → inherited mapId = true →
  addMarkers mapId ms s
  = match ms with
    | [] => (Ok tt, s)
    | md :: _ =>
        (Throw no_addLayer,
         orphan (Marker (lat md) (lng md) (js_or (title md) (JStr ""))) s)
    end.
Proof.
  intros H Hi. unfold addMarkers. unfold bind at 1.
  rewrite (maps_get_inherited _ _ H Hi). by destruct ms.
Qed.

Lemma same_core_refl s : same_core s s.
Proof. done. Qed.

Lemma place_markers_effects mapId m ms : ∀ s d,
  maps s !! mapId = Some d → md_map d = m →
  rtc effect s (foldl (place_marker mapId m) s ms).
Proof.
  induction ms as [|md ms IH]; intros s d H Hm; [apply rtc_refl|].
  cbn [foldl]. apply rtc_l with (place_marker mapId m s md).
  - subst m. eapply eff_place; [|exact H|apply same_core_refl]; done.
  - eapply IH; [by apply place_keeps_entry|done].
Qed.

Lemma creation_effect s mapId la lo z :
  maps s !! mapId = None → effect s (creation mapId la lo z s).2.
Proof.
  intros Hn.
  destruct (creation_cases s mapId la lo z)
    as [[e ->]|[[e ->]|(_ & _ & ->)]].
  - by apply eff_none.
  - eapply eff_stranded, same_core_refl.
  - eapply eff_created; [exact Hn|apply same_core_refl].
Qed.

Lemma deferred_effect s mapId la lo z :
  effect s (initializeMap_deferred mapId la lo z s).2.
Proof.
  destruct (deferred_cases s mapId la lo z)
    as [->|[[_ ->]|(_ & Hn & _ & ->)]].
  - by apply eff_none.
  - by apply eff_none.
  - by apply creation_effect.
Qed.

Lemma fit_outcome_effect s mapId d :
  maps s !! mapId = Some d → rtc effect s (fit_outcome d s).2.
Proof.
  intros H. unfold fit_outcome. case_bool_decide; [|apply rtc_refl].
  destruct (on_bounds _ _); [apply rtc_refl|].
  apply rtc_once.
  destruct (_ ≫= on_tiles);
    (eapply eff_fitted; [exact H|apply same_core_refl]).
Qed.

Lemma mount_core i s : same_core s (mount i s).
Proof. unfold mount. by case_bool_decide. Qed.

Lemma unmount_core i s : same_core s (unmount i s).
Proof. done. Qed.

Lemma step_effects s a : rtc effect s (step s a).
Proof.
  unfold step.
  destruct a as [i la lo z|i la lo t p|i ms|i la lo r c f o|i|i| |i|i];
    cbn [perform].
  - apply rtc_once. by apply eff_none.
  - destruct (maps s !! i) as [d|] eqn:E.
    + rewrite (addMarker_entry _ _ _ _ _ _ _ E). apply rtc_once.
      eapply eff_place; [|exact E|apply same_core_refl]; done.
    + destruct (inherited i) eqn:Hi.
      * rewrite addMarker_inherited by done. apply rtc_once.
        eapply eff_orphan, same_core_refl.
      * destruct (uninitialized_reports s i E Hi) as (-> & _).
        apply rtc_once. by apply eff_none.
  - destruct (maps s !! i) as [d|] eqn:E.
    + rewrite (addMarkers_entry _ _ _ _ E).
      by eapply place_markers_effects.
    + destruct (inherited i) eqn:Hi.
      * rewrite addMarkers_inherited by done. destruct ms; [apply rtc_refl|].
        apply rtc_once. eapply eff_orphan, same_core_refl.
      * destruct (uninitialized_reports s i E Hi) as (_ & -> & _).
        apply rtc_once. by apply eff_none.
  - destruct (maps s !! i) as [d|] eqn:E.
    + rewrite (addCircle_entry _ _ _ _ _ _ _ _ _ E). apply rtc_once.
      eapply eff_place; [|exact E|apply same_core_refl]; done.
    + destruct (inherited i) eqn:Hi.
      * rewrite addCircle_inherited by done. apply rtc_once.
        eapply eff_orphan, same_core_refl.
      * destruct (uninitialized_reports s i E Hi) as (_ & _ & -> & _).
        apply rtc_once. by apply eff_none.
  - destruct (maps s !! i) as [d|] eqn:E.
    + rewrite (clearMap_entry _ _ _ E). apply rtc_once.
      eapply eff_cleared; [exact E|apply same_core_refl].
    + destruct (inherited i) eqn:Hi.
      * destruct (inherited_throws s i E Hi) as (-> & _). apply rtc_refl.
      * destruct (uninitialized_reports s i E Hi) as (_ & _ & _ & -> & _).
        apply rtc_once. by apply eff_none.
  - destruct (maps s !! i) as [d|] eqn:E.
    + rewrite (fitBounds_entry _ _ _ E). by eapply fit_outcome_effect.
    + destruct (inherited i) eqn:Hi.
      * destruct (inherited_throws s i E Hi) as (_ & ->). apply rtc_refl.
      * destruct (uninitialized_reports s i E Hi) as (_ & _ & _ & _ & ->).
        apply rtc_once. by apply eff_none.
  - unfold fire. destruct (timers s) as [|t q]; [apply rtc_refl|].
    unfold run_timer. eapply rtc_l; [|apply rtc_once, deferred_effect].
    by apply eff_none.
  - apply rtc_once. apply eff_none, mount_core.
  - apply rtc_once. apply eff_none, unmount_core.
Qed.

Lemma run_snoc s acts a : run s (acts ++ [a]) = step (run s acts) a.
Proof. unfold run. by rewrite foldl_app. Qed.

Lemma run_effects s acts : rtc effect s (run s acts).
Proof.
  induction acts as [|a acts IH] using rev_ind; [apply rtc_refl|].
  rewrite run_snoc. etrans; [exact IH|apply step_effects].
Qed.

(** ** The registry invariant holds in every reachable state *)

Lemma registry_ok_initial : registry_ok initial.
Proof.
  split; cbn.
  - intros h [? H]. by rewrite lookup_empty in H.
  - intros h [? H]. by rewrite lookup_empty in H.
  - intros mapId d H. by rewrite lookup_empty in H.
  - intros mapId d h H. by rewrite lookup_empty in H.
Qed.

Lemma registry_ok_core s s' : same_core s s' → registry_ok s → registry_ok s'.
Proof.
  intros (Hm & Hn & Hwm & Hwl) [H1 H2 H3 H4].
  split; rewrite ?Hm, ?Hn, ?Hwm, ?Hwl; assumption.
Qed.

(** Two entries never share a map. *)
Lemma entries_distinct s i1 i2 d1 d2 :
  registry_ok s → maps s !! i1 = Some d1 → maps s !! i2 = Some d2 →
  md_map d1 = md_map d2 → i1 = i2.
Proof.
  intros Hok H1 H2 Heq.
  destruct (ok_entry s Hok _ _ H1) as (mp1 & _ & _ & Hmp1 & <- & _).
  destruct (ok_entry s Hok _ _ H2) as (mp2 & _ & _ & Hmp2 & <- & _).
  rewrite Heq in Hmp1. congruence.
Qed.

(** A handle in an entry's [layers] is not the entry's tile layer. *)
Lemma tracked_is_overlay s mapId d h ly :
  registry_ok s → maps s !! mapId = Some d → h ∈ md_layers d →
  w_layers (leaflet s) !! h = Some ly → is_overlay (l_kind ly) = true.
Proof.
  intros Hok H Hh Hly.
  destruct (ok_layers s Hok _ _ _ H Hh) as (ly' & _ & Hly' & Hov & _).
  congruence.
Qed.

Lemma orphan_ok k s : registry_ok s → registry_ok (orphan k s).
Proof.
  intros [H1 H2 H3 H4]. split; cbn.
  - intros h Hh. apply H1 in Hh. lia.
  - intros h Hh. apply lookup_insert_is_Some in Hh as [<-|[_ Hh]]; [lia|].
    apply H2 in Hh. lia.
  - intros mapId d H. destruct (H3 _ _ H) as (mp & t & ly & ? & ? & ? & Ht & ?).
    exists mp, t, ly. repeat split; try done.
    rewrite lookup_insert_ne; [done|].
    intros <-. specialize (H2 (w_next (leaflet s))). rewrite Ht in H2.
    specialize (H2 (mk_is_Some _ _ eq_refl)). lia.
  - intros mapId d h H Hh.
    destruct (H4 _ _ _ H Hh) as (ly & mp & Hly & ? & ? & ? & ?).
    exists ly, mp. repeat split; try done.
    rewrite lookup_insert_ne; [done|].
    intros <-. specialize (H2 (w_next (leaflet s))). rewrite Hly in H2.
    specialize (H2 (mk_is_Some _ _ eq_refl)). lia.
Qed.

Lemma layer_below s h ly :
  registry_ok s → w_layers (leaflet s) !! h = Some ly →
  h < w_next (leaflet s).
Proof. intros Hok H. apply (ok_layers_stamped s Hok). by eexists. Qed.

Lemma map_below s h mp :
  registry_ok s → w_maps (leaflet s) !! h = Some mp →
  h < w_next (leaflet s).
Proof. intros Hok H. apply (ok_maps_stamped s Hok). by eexists. Qed.

Lemma place_ok k p mapId d s :
  registry_ok s → is_overlay k = true → maps s !! mapId = Some d →
  registry_ok (place k p mapId (md_map d) s).
Proof.
  intros Hok Hk Hd. pose proof Hok as [H1 H2 H3 H4]. split; cbn.
  - intros h Hh. apply lookup_alter_is_Some in Hh. apply H1 in Hh. lia.
  - intros h Hh. apply lookup_insert_is_Some in Hh as [<-|[_ Hh]]; [lia|].
    apply H2 in Hh. lia.
  - intros i d' H.
    assert (∃ d0, maps s !! i = Some d0 ∧ md_map d' = md_map d0)
      as (d0 & Hd0 & ->).
    { destruct (decide (mapId = i)) as [<-|Hne].
      - rewrite lookup_alter_eq, Hd in H. injection H as <-. by exists d.
      - rewrite lookup_alter_ne in H by done. by exists d'. }
    destruct (H3 _ _ Hd0) as (mp & t & ly & Hmp & Hc & Ht & Hly & Hov).
    pose proof (layer_below _ _ _ Hok Hly).
    destruct (decide (md_map d = md_map d0)) as [Heq|Hne].
    + exists (attach (w_next (leaflet s)) mp), t, ly.
      rewrite Heq, lookup_alter_eq, Hmp. cbn.
      repeat split; try done; [set_solver|].
      rewrite lookup_insert_ne; [done|lia].
    + exists mp, t, ly. rewrite lookup_alter_ne by done.
      repeat split; try done. rewrite lookup_insert_ne; [done|lia].
  - intros i d' h H Hh.
    destruct (decide (mapId = i)) as [<-|Hne].
    + rewrite lookup_alter_eq, Hd in H. injection H as <-. cbn in *.
      destruct (H3 _ _ Hd) as (mp & _ & _ & Hmp & _).
      rewrite lookup_alter_eq, Hmp. cbn.
      apply elem_of_app in Hh as [Hh|Hh].
      * destruct (H4 _ _ _ Hd Hh) as (ly & mp' & Hly & Hov & Hadd & Hmp' & Hin).
        pose proof (layer_below _ _ _ Hok Hly).
        exists ly, (attach (w_next (leaflet s)) mp).
        rewrite lookup_insert_ne by lia.
        repeat split; try done. cbn. rewrite Hmp in Hmp'.
        injection Hmp' as <-. set_solver.
      * apply list_elem_of_singleton in Hh as ->.
        eexists _, _. rewrite lookup_insert_eq.
        repeat split; try done. cbn. set_solver.
    + rewrite lookup_alter_ne in H by done.
      destruct (H4 _ _ _ H Hh) as (ly & mp & Hly & Hov & Hadd & Hmp & Hin).
      pose proof (layer_below _ _ _ Hok Hly).
      assert (md_map d ≠ md_map d') as Hm.
      { intros Heq. apply Hne. by eapply entries_distinct. }
      exists ly, mp. rewrite lookup_insert_ne by lia.
      rewrite lookup_alter_ne by done. done.
Qed.

Lemma cleared_ok mapId d s :
  registry_ok s → maps s !! mapId = Some d →
  registry_ok (cleared mapId d s).
Proof.
  intros Hok Hd. pose proof Hok as [H1 H2 H3 H4]. split; cbn.
  - intros h Hh. apply lookup_alter_is_Some in Hh. by apply H1.
  - done.
  - intros i d' H.
    destruct (decide (mapId = i)) as [<-|Hne].
    + rewrite lookup_alter_eq, Hd in H. injection H as <-. cbn.
      destruct (H3 _ _ Hd) as (mp & t & ly & Hmp & Hc & Ht & Hly & Hov).
      exists (detach_all (md_layers d) mp), t, ly.
      rewrite lookup_alter_eq, Hmp. repeat split; try done. cbn.
      apply elem_of_difference. split; [done|].
      rewrite elem_of_list_to_set. intros Hin.
      pose proof (tracked_is_overlay _ _ _ _ _ Hok Hd Hin Hly). congruence.
    + rewrite lookup_alter_ne in H by done.
      destruct (H3 _ _ H) as (mp & t & ly & Hmp & Hc & Ht & Hly & Hov).
      assert (md_map d ≠ md_map d') as Hm.
      { intros Heq. apply Hne. by eapply entries_distinct. }
      exists mp, t, ly. by rewrite lookup_alter_ne.
  - intros i d' h H Hh.
    destruct (decide (mapId = i)) as [<-|Hne].
    + rewrite lookup_alter_eq, Hd in H. injection H as <-. cbn in Hh.
      by apply elem_of_nil in Hh.
    + rewrite lookup_alter_ne in H by done.
      destruct (H4 _ _ _ H Hh) as (ly & mp & Hly & Hov & Hadd & Hmp & Hin).
      assert (md_map d ≠ md_map d') as Hm.
      { intros Heq. apply Hne. by eapply entries_distinct. }
      exists ly, mp. by rewrite lookup_alter_ne.
Qed.

Lemma fitted_ok mapId d s :
  registry_ok s → maps s !! mapId = Some d → registry_ok (fitted d s).
Proof.
  intros Hok Hd. pose proof Hok as [H1 H2 H3 H4]. split; cbn.
  - intros h Hh. apply lookup_alter_is_Some in Hh. by apply H1.
  - done.
  - intros i d' H.
    destruct (H3 _ _ H) as (mp & t & ly & Hmp & Hc & Ht & Hly & Hov).
    destruct (decide (md_map d = md_map d')) as [Heq|Hne].
    + eexists _, t, ly. rewrite Heq, lookup_alter_eq, Hmp. done.
    + exists mp, t, ly. by rewrite lookup_alter_ne.
  - intros i d' h H Hh.
    destruct (H4 _ _ _ H Hh) as (ly & mp & Hly & Hov & Hadd & Hmp & Hin).
    destruct (decide (md_map d = md_map d')) as [Heq|Hne].
    + eexists ly, _. rewrite Heq, lookup_alter_eq, Hmp. done.
    + exists ly, mp. by rewrite lookup_alter_ne.
Qed.

Lemma created_ok mapId la lo z s :
  registry_ok s → maps s !! mapId = None →
  registry_ok (created mapId la lo z s).
Proof.
  intros Hok Hn. pose proof Hok as [H1 H2 H3 H4]. split; cbn.
  - intros h Hh. apply lookup_insert_is_Some in Hh as [<-|[_ Hh]]; [lia|].
    apply H1 in Hh. lia.
  - intros h Hh. apply lookup_insert_is_Some in Hh as [<-|[_ Hh]]; [lia|].
    apply H2 in Hh. lia.
  - intros i d' H.
    destruct (decide (mapId = i)) as [<-|Hne].
    + rewrite lookup_insert_eq in H. injection H as <-. cbn.
      eexists _, (S (w_next (leaflet s))), _. rewrite !lookup_insert_eq.
      repeat split; try done. set_solver.
    + rewrite lookup_insert_ne in H by done.
      destruct (H3 _ _ H) as (mp & t & ly & Hmp & Hc & Ht & Hly & Hov).
      pose proof (layer_below _ _ _ Hok Hly).
      pose proof (map_below _ _ _ Hok Hmp).
      exists mp, t, ly. rewrite !lookup_insert_ne by lia. done.
  - intros i d' h H Hh.
    destruct (decide (mapId = i)) as [<-|Hne].
    + rewrite lookup_insert_eq in H. injection H as <-. cbn in Hh.
      by apply elem_of_nil in Hh.
    + rewrite lookup_insert_ne in H by done.
      destruct (H4 _ _ _ H Hh) as (ly & mp & Hly & Hov & Hadd & Hmp & Hin).
      pose proof (layer_below _ _ _ Hok Hly).
      pose proof (map_below _ _ _ Hok Hmp).
      exists ly, mp. rewrite !lookup_insert_ne by lia. done.
Qed.

Lemma stranded_ok mapId la lo z s :
  registry_ok s → registry_ok (stranded mapId la lo z s).
Proof.
  intros Hok. pose proof Hok as [H1 H2 H3 H4]. split; cbn.
  - intros h Hh. apply lookup_insert_is_Some in Hh as [<-|[_ Hh]]; [lia|].
    apply H1 in Hh. lia.
  - intros h Hh. apply lookup_insert_is_Some in Hh as [<-|[_ Hh]]; [lia|].
    apply H2 in Hh. lia.
  - intros i d' H.
    destruct (H3 _ _ H) as (mp & t & ly & Hmp & Hc & Ht & Hly & Hov).
    pose proof (layer_below _ _ _ Hok Hly).
    pose proof (map_below _ _ _ Hok Hmp).
    exists mp, t, ly. rewrite !lookup_insert_ne by lia. done.
  - intros i d' h H Hh.
    destruct (H4 _ _ _ H Hh) as (ly & mp & Hly & Hov & Hadd & Hmp & Hin).
    pose proof (layer_below _ _ _ Hok Hly).
    pose proof (map_below _ _ _ Hok Hmp).
    exists ly, mp. rewrite !lookup_insert_ne by lia. done.
Qed.

Lemma effect_ok s s' : effect s s' → registry_ok s → registry_ok s'.
Proof.
  intros [? Hc|k p i d ? Hk Hd Hc|k ? Hc|i d ? Hd Hc|i d ? Hd Hc
         |i la lo z ? Hn Hc|i la lo z ? Hc] Hok;
    apply (registry_ok_core _ _ Hc).
  - done.
  - by apply place_ok.
  - by apply orphan_ok.
  - by apply cleared_ok.
  - by eapply fitted_ok.
  - by apply created_ok.
  - by apply stranded_ok.
Qed.

Lemma effects_ok s s' : rtc effect s s' → registry_ok s → registry_ok s'.
Proof. induction 1; eauto using effect_ok. Qed.

Lemma run_ok acts : registry_ok (run initial acts).
Proof. eapply effects_ok; [apply run_effects|apply registry_ok_initial]. Qed.

(** C7: in every state the page can reach, each handle in the [layers] of
    an entry is a marker or a circle (what [addMarker], [addMarkers] and
    [addCircle] make) that was added to the map of that entry and to no
    other map, in particular to the map of no other entry, and it is on
    that map. *)
Theorem layers_attached_to_own_map acts mapId d h :
  let s := run initial acts in
  maps s !! mapId = Some d → h ∈ md_layers d →
  ∃ ly mp,
    w_layers (leaflet s) !! h = Some ly ∧
    is_overlay (l_kind ly) = true ∧
    l_added_to ly = {[md_map d]} ∧
    w_maps (leaflet s) !! md_map d = Some mp ∧ h ∈ m_layers mp ∧
    ∀ mapId' d', mapId' ≠ mapId → maps s !! mapId' = Some d' →
                 md_map d' ∉ l_added_to ly.
Proof.
  intros s Hd Hh. pose proof (run_ok acts) as Hok. fold s in Hok.
  destruct (ok_layers s Hok _ _ _ Hd Hh) as (ly & mp & Hly & Hov & Hadd & Hmp & Hin).
  exists ly, mp. repeat split; try done.
  intros mapId' d' Hne Hd'. rewrite Hadd, elem_of_singleton.
  intros Heq. apply Hne. by eapply entries_distinct.
Qed.

(** ** Entries stay *)

Lemma effect_keeps_entries s s' : effect s s' → keeps_entries s s'.
Proof.
  intros [? [Hm _]|k p i d ? _ Hd [Hm _]|k ? [Hm _]|i d ? Hd [Hm _]
         |i d ? Hd [Hm _]|i la lo z ? Hn [Hm _]|i la lo z ? [Hm _]]
         mapId d0 H0;
    rewrite Hm; cbn.
  - eauto.
  - destruct (decide (i = mapId)) as [->|Hne].
    + rewrite lookup_alter_eq, H0. by eexists.
    + rewrite lookup_alter_ne by done. eauto.
  - eauto.
  - destruct (decide (i = mapId)) as [->|Hne].
    + rewrite lookup_alter_eq, H0. by eexists.
    + rewrite lookup_alter_ne by done. eauto.
  - eauto.
  - rewrite lookup_insert_ne; [eauto|]. congruence.
  - eauto.
Qed.

Lemma effects_keep_entries s s' : rtc effect s s' → keeps_entries s s'.
Proof.
  induction 1 as [s|s s1 s2 H1 _ IH].
  - intros mapId d H. eauto.
  - intros mapId d H.
    destruct (effect_keeps_entries _ _ H1 _ _ H) as (d1 & Hd1 & Hm1).
    destruct (IH _ _ Hd1) as (d2 & Hd2 & Hm2).
    exists d2. split; [done|congruence].
Qed.

(** The deferred body of [initializeMap], for whichever identifier, leaves
    every existing entry as it is. *)
Lemma deferred_keeps_entry s i la lo z mapId d :
  maps s !! mapId = Some d →
  maps (initializeMap_deferred i la lo z s).2 !! mapId = Some d.
Proof.
  intros H.
  destruct (deferred_cases s i la lo z) as [->|[[_ ->]|(_ & Hn & _ & ->)]];
    [done|done|].
  destruct (creation_cases s i la lo z) as [[e ->]|[[e ->]|(_ & _ & ->)]];
    [done|done|].
  cbn. rewrite lookup_insert_ne; [done|]. congruence.
Qed.

(** C10: an entry, once there, is there with the same map handle after
    any sequence of calls, timer firings and changes of the page, calls that
    throw included; and a repeated [initializeMap], its call as well as the
    firing of a timer, leaves the whole entry, map handle and [layers], as it
    is, whether or not the element is on the page by then. *)
Theorem entries_persist s mapId d :
  maps s !! mapId = Some d →
  (∀ acts, ∃ d', maps (run s acts) !! mapId = Some d' ∧
                 md_map d' = md_map d) ∧
  (∀ la lo z, maps (step s (CallInitializeMap mapId la lo z)) !! mapId
              = Some d) ∧
  maps (step s Fire) !! mapId = Some d ∧
  (∀ la lo z, maps (run_timer (mkTimer 100%Q mapId la lo z) s).2 !! mapId
              = Some d).
Proof.
  intros H. repeat split.
  - intros acts. by apply (effects_keep_entries s _ (run_effects s acts)).
  - done.
  - unfold step. cbn [perform]. unfold fire.
    destruct (timers s) as [|t q]; [done|].
    unfold run_timer. by apply deferred_keeps_entry.
  - intros la lo z. unfold run_timer. by apply deferred_keeps_entry.
Qed.

(** ** Initializing twice *)

Lemma deferred_created s mapId la lo z :
  maps s !! mapId = None →
  is_Some (maps (initializeMap_deferred mapId la lo z s).2 !! mapId) →
  initializeMap_deferred mapId la lo z s = (Ok tt, created mapId la lo z s).
Proof.
  intros Hn [d Hd].
  destruct (deferred_cases s mapId la lo z) as [E|[[_ E]|(_ & _ & _ & E)]];
    rewrite E in Hd |- *; [cbn in Hd; congruence|cbn in Hd; congruence|].
  destruct (creation_cases s mapId la lo z)
    as [[e E']|[[e E']|(_ & _ & E')]];
    rewrite E' in Hd |- *; [cbn in Hd; congruence|cbn in Hd; congruence|].
  done.
Qed.

(** C2: after an [initializeMap(id, lat1, lng1, zoom1)] whose deferred body
    created the entry, and whatever happened on the page since ([acts]), a
    second [initializeMap(id, lat2, lng2, zoom2)], call and deferred body
    both, leaves the registry and Leaflet as they were: the entry of [id]
    is the one it was, its map has the view it had (with no action in
    between: centred at (lat1, lng1) with zoom1), and Leaflet holds no more
    maps than before.  [doc] is the set of elements mounted when the second
    timer fires. *)
Theorem initializeMap_twice s mapId la1 lo1 z1 la2 lo2 z2 acts doc :
  maps s !! mapId = None →
  is_Some (maps (initializeMap_deferred mapId la1 lo1 z1 s).2 !! mapId) →
  let n := w_next (leaflet s) in
  let s1 := (initializeMap_deferred mapId la1 lo1 z1 s).2 in
  let s1' := run s1 acts in
  let s2 := (initializeMap mapId la2 lo2 z2 s1').2 in
  let s3 := (run_timer (mkTimer 100%Q mapId la2 lo2 z2)
               (set_document (λ _, doc) s2)).2 in
  maps s1 !! mapId = Some (mkMapData n []) ∧
  w_maps (leaflet s1) !! n = Some (mkLMap mapId (SetView la1 lo1 z1) {[S n]}) ∧
  maps s3 = maps s1' ∧
  leaflet s3 = leaflet s1' ∧
  size (w_maps (leaflet s3)) = size (w_maps (leaflet s1')).
Proof.
  intros Hn Hc n s1 s1' s2 s3.
  assert (Hs1 : s1 = created mapId la1 lo1 z1 s).
  { unfold s1. by rewrite deferred_created. }
  assert (He : maps s1 !! mapId = Some (mkMapData n [])).
  { rewrite Hs1. cbn. by rewrite lookup_insert_eq. }
  destruct (effects_keep_entries s1 s1' (run_effects s1 acts) _ _ He)
    as (d' & He' & _).
  assert (Hsame : maps s3 = maps s1' ∧ leaflet s3 = leaflet s1').
  { unfold s3, run_timer. cbn [t_mapId t_latitude t_longitude t_zoom].
    destruct (reinitialize_noop (set_document (λ _, doc) s2)
                mapId d' la2 lo2 z2) as (_ & _ & Hm & Hl); [exact He'|].
    rewrite Hm, Hl. done. }
  destruct Hsame as [Hm Hl].
  repeat split; try done.
  - rewrite Hs1. cbn. by rewrite lookup_insert_eq.
  - by rewrite Hl.
Qed.

(** ** Clearing and fitting *)

(** C3: on an existing entry [clearMap] returns normally; afterwards the
    entry's [layers] is empty, none of the handles it held is on the map any
    more (each was, before), and the map keeps its element, its view (centre
    and zoom) and every layer that is not a marker or circle, the tile layer
    among them.  The layer objects themselves are not touched. *)
Theorem clearMap_detaches acts mapId d :
  let s := run initial acts in
  maps s !! mapId = Some d →
  ∃ s' mp mp',
    clearMap mapId s = (Ok tt, s') ∧
    maps s' !! mapId = Some (mkMapData (md_map d) []) ∧
    w_maps (leaflet s) !! md_map d = Some mp ∧
    w_maps (leaflet s') !! md_map d = Some mp' ∧
    (∀ h, h ∈ md_layers d → h ∈ m_layers mp ∧ h ∉ m_layers mp') ∧
    m_container mp' = m_container mp ∧
    m_view mp' = m_view mp ∧
    (∀ t ly, t ∈ m_layers mp → w_layers (leaflet s) !! t = Some ly →
             is_overlay (l_kind ly) = false → t ∈ m_layers mp') ∧
    (∃ t ly, t ∈ m_layers mp' ∧ w_layers (leaflet s') !! t = Some ly ∧
             is_overlay (l_kind ly) = false) ∧
    w_layers (leaflet s') = w_layers (leaflet s).
Proof.
  intros s Hd. pose proof (run_ok acts) as Hok. fold s in Hok.
  destruct (ok_entry s Hok _ _ Hd) as (mp & t & ly & Hmp & Hc & Ht & Hly & Hov).
  assert (Hkeep : ∀ t ly, t ∈ m_layers mp →
            w_layers (leaflet s) !! t = Some ly →
            is_overlay (l_kind ly) = false →
            t ∈ m_layers (detach_all (md_layers d) mp)).
  { intros t0 ly0 Ht0 Hly0 Hov0. cbn. apply elem_of_difference.
    split; [done|]. rewrite elem_of_list_to_set. intros Hin.
    pose proof (tracked_is_overlay _ _ _ _ _ Hok Hd Hin Hly0). congruence. }
  exists (cleared mapId d s), mp, (detach_all (md_layers d) mp).
  split; [by apply clearMap_entry|].
  split; [cbn; by rewrite lookup_alter_eq, Hd|].
  split; [done|].
  split; [cbn; by rewrite lookup_alter_eq, Hmp|].
  split.
  { intros h Hh. split.
    - destruct (ok_layers s Hok _ _ _ Hd Hh) as (_ & mp0 & _ & _ & _ & Hmp0 & Hin).
      congruence.
    - cbn. rewrite elem_of_difference, elem_of_list_to_set. tauto. }
  split; [done|]. split; [done|]. split; [exact Hkeep|].
  split; [|done].
  exists t, ly. split; [by eapply Hkeep|done].
Qed.

(** C5, amended: on an existing entry, with an empty [layers] [fitBounds]
    returns and the state is the same as before; with a non-empty [layers],
    if Leaflet gives the region of the group and loads the tiles for the
    new view, it returns normally and the one change anywhere is the view
    of the entry's map, which becomes the region of a feature group of
    exactly the handles in [layers], padded by 0.1.  In both cases the
    registry, [layers] included, is as it was. *)
Theorem fitBounds_viewport acts mapId d :
  let s := run initial acts in
  maps s !! mapId = Some d →
  (md_layers d ≠ [] → on_bounds (leaflet s) (md_layers d) = None) →
  (md_layers d ≠ [] →
   ∀ mp, w_maps (leaflet s) !! md_map d = Some mp →
         on_tiles (mkLMap (m_container mp)
                     (FitView (Pad (GroupBounds (md_layers d)) 0.1%Q))
                     (m_layers mp)) = None) →
  ∃ s' mp,
    fitBounds mapId s = (Ok tt, s') ∧
    w_maps (leaflet s) !! md_map d = Some mp ∧
    maps s' = maps s ∧
    (md_layers d ≠ [] →
       w_maps (leaflet s')
       = <[md_map d :=
             mkLMap (m_container mp)
                    (FitView (Pad (GroupBounds (md_layers d)) 0.1%Q))
                    (m_layers mp)]> (w_maps (leaflet s))) ∧
    (md_layers d = [] → s' = s) ∧
    w_layers (leaflet s') = w_layers (leaflet s) ∧
    w_next (leaflet s') = w_next (leaflet s) ∧
    document s' = document s ∧ console s' = console s ∧
    timers s' = timers s.
Proof.
  intros s Hd Hb Ht. pose proof (run_ok acts) as Hok. fold s in Hok.
  destruct (ok_entry s Hok _ _ Hd) as (mp & _ & _ & Hmp & _).
  rewrite (fitBounds_entry _ _ _ Hd). unfold fit_outcome.
  case_bool_decide as Hlen.
  - assert (md_layers d ≠ []) as Hne.
    { intros Hnil. rewrite Hnil in Hlen. cbn in Hlen. lia. }
    rewrite (Hb Hne). cbn [fitted set_leaflet leaflet w_maps].
    rewrite lookup_alter_eq, Hmp. simpl. unfold fit.
    rewrite (Ht Hne mp Hmp).
    eexists _, mp. split; [reflexivity|]. repeat split; try done.
    intros _. cbn. by rewrite (alter_alt_Some _ _ _ _ Hmp).
  - eexists _, mp. split; [reflexivity|]. repeat split; try done.
    intros Hne. destruct (md_layers d); [done|]. cbn in Hlen. lia.
Qed.

(** On an existing entry [fitBounds] leaves the registry as it is, whether
    it returns or throws. *)
Lemma fitBounds_keeps_registry s mapId :
  maps (fitBounds mapId s).2 = maps s.
Proof.
  destruct (maps s !! mapId) as [d|] eqn:E.
  - rewrite (fitBounds_entry _ _ _ E). unfold fit_outcome.
    case_bool_decide; [|done]. destruct (on_bounds _ _); [done|].
    by destruct (_ ≫= on_tiles).
  - destruct (inherited mapId) eqn:Hi.
    + by destruct (inherited_throws s mapId E Hi) as (_ & ->).
    + by destruct (uninitialized_reports s mapId E Hi) as (_ & _ & _ & _ & ->).
Qed.

(** * Further properties of the calls *)

(** ** What a guarded call may touch *)

Lemma touches_only_refl mapId s : touches_only mapId s s.
Proof.
  split; try done.
  - exists (λ d, d). symmetry. by apply alter_id.
  - by left.
Qed.

Lemma touches_only_reported mapId s :
  maps s !! mapId = None →
  touches_only mapId s (reported (msg_not_initialized mapId) s).2.
Proof.
  intros H. split; try done.
  - exists (λ d, d). symmetry. by apply alter_id.
  - by right.
Qed.

Lemma touches_only_orphan mapId k s :
  maps s !! mapId = None → touches_only mapId s (orphan k s).
Proof.
  intros H. split; try done; cbn.
  - exists (λ d, d). symmetry. by apply alter_id.
  - by left.
  - intros h Hh. apply lookup_insert_ne. lia.
  - lia.
Qed.

Lemma touches_only_place mapId d k p s :
  maps s !! mapId = Some d →
  touches_only mapId s (place k p mapId (md_map d) s).
Proof.
  intros H. split; try done; cbn.
  - by eexists.
  - by left.
  - intros h Hh. apply lookup_insert_ne. lia.
  - intros h Hh. apply lookup_alter_ne. by apply Hh.
  - lia.
Qed.

Lemma touches_only_place_markers mapId d ms s :
  maps s !! mapId = Some d →
  touches_only mapId s (foldl (place_marker mapId (md_map d)) s ms).
Proof.
  intros H.
  destruct (place_markers_shape mapId (md_map d) ms s)
    as (Hmaps & Hnext & Hwm & Hold & _ & Hdoc & Hcon & Htim).
  split; try done.
  - by eexists.
  - by left.
  - intros h Hh. rewrite Hwm. apply lookup_alter_ne. by apply Hh.
  - rewrite Hnext. lia.
Qed.

Lemma touches_only_cleared mapId d s :
  maps s !! mapId = Some d → touches_only mapId s (cleared mapId d s).
Proof.
  intros H. split; try done; cbn.
  - by eexists.
  - by left.
  - intros h Hh. apply lookup_alter_ne. by apply Hh.
Qed.

Lemma touches_only_fitted mapId d s :
  maps s !! mapId = Some d → touches_only mapId s (fitted d s).
Proof.
  intros H. split; try done; cbn.
  - exists (λ d, d). symmetry. by apply alter_id.
  - by left.
  - intros h Hh. apply lookup_alter_ne. by apply Hh.
Qed.

Lemma guarded_outcome s a mapId :
  guarded a = Some mapId → touches_only mapId s (step s a).
Proof.
  unfold step.
  destruct a as [i la lo z|i la lo t p|i ms|i la lo r c f o|i|i| |i|i];
    cbn [guarded perform]; intros [= ->];
    (destruct (maps s !! mapId) as [d|] eqn:E;
     [|destruct (inherited mapId) eqn:Hi]).
  - rewrite (addMarker_entry _ _ _ _ _ _ _ E). by apply touches_only_place.
  - rewrite addMarker_inherited by done. by apply touches_only_orphan.
  - destruct (uninitialized_reports s mapId E Hi) as (-> & _).
    by apply touches_only_reported.
  - rewrite (addMarkers_entry _ _ _ _ E).
    by apply touches_only_place_markers.
  - rewrite addMarkers_inherited by done.
    destruct ms; [apply touches_only_refl|by apply touches_only_orphan].
  - destruct (uninitialized_reports s mapId E Hi) as (_ & -> & _).
    by apply touches_only_reported.
  - rewrite (addCircle_entry _ _ _ _ _ _ _ _ _ E).
    by apply touches_only_place.
  - rewrite addCircle_inherited by done. by apply touches_only_orphan.
  - destruct (uninitialized_reports s mapId E Hi) as (_ & _ & -> & _).
    by apply touches_only_reported.
  - rewrite (clearMap_entry _ _ _ E). by apply touches_only_cleared.
  - destruct (inherited_throws s mapId E Hi) as (-> & _).
    apply touches_only_refl.
  - destruct (uninitialized_reports s mapId E Hi) as (_ & _ & _ & -> & _).
    by apply touches_only_reported.
  - rewrite (fitBounds_entry _ _ _ E). unfold fit_outcome.
    case_bool_decide; [|apply touches_only_refl].
    destruct (on_bounds _ _); [apply touches_only_refl|].
    destruct (_ ≫= on_tiles); by eapply touches_only_fitted.
  - destruct (inherited_throws s mapId E Hi) as (_ & ->).
    apply touches_only_refl.
  - destruct (uninitialized_reports s mapId E Hi) as (_ & _ & _ & _ & ->).
    by apply touches_only_reported.
Qed.


(** ** The guard *)

(** X1: for an identifier that has no entry and is not a name inherited
    from [Object.prototype], each of the five guarded calls returns normally
    after writing the one line [Map '<id>' not initialized] to the console;
    registry, Leaflet, page and timer queue are as before. *)
Theorem guard_reports s a mapId :
  guarded a = Some mapId →
  maps s !! mapId = None → inherited mapId = false →
  perform a s
  = (Ok tt, mkState (maps s) (document s) (leaflet s)
                    (console s ++ [msg_not_initialized mapId]) (timers s)).
Proof.
  intros Ha H Hi.
  destruct (uninitialized_reports s mapId H Hi) as (H1 & H2 & H3 & H4 & H5).
  destruct a; cbn [guarded] in Ha; try discriminate; injection Ha as ->;
    cbn [perform]; by rewrite ?H1, ?H2, ?H3, ?H4, ?H5.
Qed.

(** X2: on an identifier that has an entry, [addMarker], [addMarkers],
    [addCircle] and [clearMap] return normally; and each of the five guarded
    calls, [fitBounds] too and also when Leaflet throws in it, writes
    nothing to the console, leaves the page and the timer queue as they
    are, and leaves the entry there with its map. *)
Theorem entry_calls_return s a mapId d :
  guarded a = Some mapId → maps s !! mapId = Some d →
  ((∀ i, a ≠ CallFitBounds i) → (perform a s).1 = Ok tt) ∧
  console (step s a) = console s ∧
  document (step s a) = document s ∧
  timers (step s a) = timers s ∧
  ∃ d', maps (step s a) !! mapId = Some d' ∧ md_map d' = md_map d.
Proof.
  intros Ha H.
  destruct (guarded_outcome s a mapId Ha) as [Hdoc Htim [f Hmaps] Hcon _ _ _].
  split.
  - intros Hfit.
    destruct a; cbn [guarded] in Ha; try discriminate; injection Ha as ->;
      cbn [perform].
    + by rewrite (addMarker_entry _ _ _ _ _ _ _ H).
    + by rewrite (addMarkers_entry _ _ _ _ H).
    + by rewrite (addCircle_entry _ _ _ _ _ _ _ _ _ H).
    + by rewrite (clearMap_entry _ _ _ H).
    + by destruct (Hfit mapId).
  - split; [destruct Hcon as [?|[? _]]; [done|congruence]|].
    split; [done|]. split; [done|].
    apply (effects_keep_entries s _ (step_effects s a) _ _ H).
Qed.

(** ** Timers and the console *)

Lemma deferred_timers s mapId la lo z :
  timers (initializeMap_deferred mapId la lo z s).2 = timers s.
Proof.
  by destruct (deferred_state s mapId la lo z) as [->|[->|(_ & _ & [->| ->])]].
Qed.

(** X3: the timer queue changes in two ways only.  [initializeMap] puts
    exactly one timer of 100 ms at its end, and a firing takes the oldest
    one off: whatever the deferred body finds, it is not run again and sets
    no timer of its own.  No other call touches the queue. *)
Theorem timer_queue s a :
  timers (step s a)
  = match a with
    | CallInitializeMap i la lo z => timers s ++ [mkTimer 100%Q i la lo z]
    | Fire => tail (timers s)
    | _ => timers s
    end.
Proof.
  destruct a as [i la lo z|i la lo t p|i ms|i la lo r c f o|i|i| |i|i];
    cbn beta iota;
    try (refine (to_timers _ _ _ (guarded_outcome s _ i _)); reflexivity);
    try done.
  - unfold step. cbn [perform]. unfold fire.
    destruct (timers s) as [|t q] eqn:E; [exact E|].
    unfold run_timer. by rewrite deferred_timers.
  - unfold step. cbn. unfold mount. by case_bool_decide.
Qed.

Lemma step_console s a :
  console (step s a) = console s ∨
  ∃ i, console (step s a) = console s ++ [msg_element_not_found i] ∨
       console (step s a) = console s ++ [msg_not_initialized i].
Proof.
  destruct a as [i la lo z|i la lo t p|i ms|i la lo r c f o|i|i| |i|i];
    try (match goal with
         | |- context [step s ?a] =>
             destruct (to_console _ _ _ (guarded_outcome s a i eq_refl))
               as [?|[_ ?]]; [by left|right; exists i; by right]
         end);
    try (by left).
  - unfold step. cbn [perform]. unfold fire.
    destruct (timers s) as [|t q]; [by left|]. unfold run_timer.
    destruct (deferred_state (set_timers (λ _, q) s) (t_mapId t)
                (t_latitude t) (t_longitude t) (t_zoom t))
      as [->|[->|(_ & _ & [->| ->])]]; [by left| |by left|by left].
    right. exists (t_mapId t). by left.
  - left. unfold step. cbn. unfold mount. by case_bool_decide.
Qed.

(** X4: whatever is called, in whatever order, the console only ever
    receives the two messages of the module: [Map element with ID '<id>' not
    found] and [Map '<id>' not initialized]. *)
Theorem console_lines acts line :
  line ∈ console (run initial acts) →
  ∃ i, line = msg_element_not_found i ∨ line = msg_not_initialized i.
Proof.
  induction acts as [|a acts IH] using rev_ind.
  - cbn. intros H. by apply elem_of_nil in H.
  - rewrite run_snoc.
    destruct (step_console (run initial acts) a) as [->|[i [-> | ->]]];
      [done| |];
      (intros [H|H]%elem_of_app; [by apply IH|]);
      apply list_elem_of_singleton in H; exists i; [by left|by right].
Qed.

(** ** Maps do not interfere *)

(** X5: in every state the page can reach, a guarded call on one identifier
    leaves every other entry as it is: same map handle and same [layers] in
    the registry, the same map in Leaflet (view, container, layers on it),
    and the same layer objects behind the handles of its [layers]. *)
Theorem other_entries_untouched acts a mapId other d :
  let s := run initial acts in
  guarded a = Some mapId → other ≠ mapId → maps s !! other = Some d →
  maps (step s a) !! other = Some d ∧
  w_maps (leaflet (step s a)) !! md_map d = w_maps (leaflet s) !! md_map d ∧
  ∀ h, h ∈ md_layers d →
       w_layers (leaflet (step s a)) !! h = w_layers (leaflet s) !! h.
Proof.
  intros s Ha Hne Hd. pose proof (run_ok acts) as Hok. fold s in Hok.
  destruct (guarded_outcome s a mapId Ha) as [_ _ [f Hmaps] _ Hl Hm _].
  split; [|split].
  - rewrite Hmaps, lookup_alter_ne; done.
  - apply Hm. intros d0 Hd0 Heq. apply Hne.
    symmetry. by eapply entries_distinct.
  - intros h Hh. apply Hl.
    destruct (ok_layers s Hok _ _ _ Hd Hh) as (ly & _ & Hly & _).
    by eapply layer_below.
Qed.

(** X6: no action changes a layer object once its call has stamped it:
    kind, coordinates, title, popup and the maps it was added to stay what
    they were.  In particular [clearMap] takes layers off the map without
    altering them. *)
Theorem layers_never_modified s a h :
  h < w_next (leaflet s) →
  w_layers (leaflet (step s a)) !! h = w_layers (leaflet s) !! h.
Proof.
  intros Hh.
  destruct a as [i la lo z|i la lo t p|i ms|i la lo r c f o|i|i| |i|i];
    try (refine (to_layers _ _ _ (guarded_outcome s _ i _) h Hh);
         reflexivity);
    try done.
  - unfold step. cbn [perform]. unfold fire.
    destruct (timers s) as [|t q]; [done|]. unfold run_timer.
    destruct (deferred_state (set_timers (λ _, q) s) (t_mapId t)
                (t_latitude t) (t_longitude t) (t_zoom t))
      as [->|[->|(_ & _ & [->| ->])]]; [done|done| |];
      cbn; apply lookup_insert_ne; lia.
  - unfold step. cbn. unfold mount. by case_bool_decide.
Qed.

(** ** Names inherited from [Object.prototype] *)

Lemma step_keeps_unregistered s a mapId :
  inherited mapId = true → maps s !! mapId = None →
  maps (step s a) !! mapId = None.
Proof.
  intros Hi H.
  destruct a as [i la lo z|i la lo t p|i ms|i la lo r c f o|i|i| |i|i];
    try (match goal with
         | |- context [step s ?a] =>
             destruct (to_maps _ _ _ (guarded_outcome s a i eq_refl))
               as [g ->];
             by apply lookup_alter_None
         end);
    try done.
  - unfold step. cbn [perform]. unfold fire.
    destruct (timers s) as [|t q]; [done|]. unfold run_timer.
    destruct (deferred_state (set_timers (λ _, q) s) (t_mapId t)
                (t_latitude t) (t_longitude t) (t_zoom t))
      as [->|[->|(_ & Hni & [->| ->])]]; [done|done|done|].
    cbn. rewrite lookup_insert_ne; [done|]. congruence.
  - unfold step. cbn. unfold mount. by case_bool_decide.
Qed.

(** X7: an identifier that is the name of a member of [Object.prototype]
    never gets an entry, whatever is mounted and called: the test
    [!maps[mapId]] of the deferred body finds the inherited member and skips
    the creation. *)
Theorem inherited_never_registered acts mapId :
  inherited mapId = true → maps (run initial acts) !! mapId = None.
Proof.
  intros Hi. induction acts as [|a acts IH] using rev_ind; [done|].
  rewrite run_snoc. by apply step_keeps_unregistered.
Qed.

(** ** The deferred attempt *)

Lemma step_initialize s mapId la lo z :
  step s (CallInitializeMap mapId la lo z)
  = set_timers (λ q, q ++ [mkTimer 100%Q mapId la lo z]) s.
Proof. reflexivity. Qed.

Lemma step_fire s t q :
  timers s = t :: q →
  step s Fire = (run_timer t (set_timers (λ _, q) s)).2.
Proof. intros H. unfold step. cbn [perform]. unfold fire. by rewrite H. Qed.

(** X8: the [initializeMap] call never throws.  The function it hands to
    [setTimeout] throws only from inside Leaflet, after the element was
    found and nothing was found at [maps[mapId]]: either the element holds
    a map already, or the tiles cannot be loaded for the view.  The
    registry and the console are then as they were. *)
Theorem deferred_throws_in_Leaflet_only s mapId la lo z :
  (initializeMap mapId la lo z s).1 = Ok tt ∧
  ∀ e, (initializeMap_deferred mapId la lo z s).1 = Throw e →
    mapId ∈ document s ∧ maps s !! mapId = None ∧ inherited mapId = false ∧
    (mapId ∈ w_containers (leaflet s) ∨
     on_tiles (mkLMap mapId (SetView la lo z) {[S (w_next (leaflet s))]})
     = Some e) ∧
    maps (initializeMap_deferred mapId la lo z s).2 = maps s ∧
    console (initializeMap_deferred mapId la lo z s).2 = console s.
Proof.
  split; [done|]. intros e.
  destruct (deferred_cases s mapId la lo z)
    as [->|[[_ ->]|(Hd & Hn & Hi & ->)]]; [done|done|].
  unfold creation, new_map. case_bool_decide as Hc.
  - intros _. repeat split; try done. by left.
  - destruct (on_tiles _) as [e0|] eqn:E; [|done].
    intros [= ->]. repeat split; try done. by right.
Qed.

(** X9: two [initializeMap] calls for one identifier before any timer has
    fired make one map.  For an identifier with nothing at [maps[mapId]]
    (no entry, no inherited member) whose element is on the page and holds
    no map, a first view for which Leaflet loads the tiles, and no other
    timer pending: the first call's centre and zoom are used, the second
    timer finds the entry and does nothing, and nothing is reported. *)
Theorem pending_initializes_first_wins s mapId la1 lo1 z1 la2 lo2 z2 :
  mapId ∈ document s → maps s !! mapId = None → inherited mapId = false →
  mapId ∉ w_containers (leaflet s) →
  on_tiles (mkLMap mapId (SetView la1 lo1 z1) {[S (w_next (leaflet s))]})
  = None →
  timers s = [] →
  let n := w_next (leaflet s) in
  let s' := run s [ CallInitializeMap mapId la1 lo1 z1;
                    CallInitializeMap mapId la2 lo2 z2; Fire; Fire ] in
  maps s' = <[mapId := mkMapData n []]> (maps s) ∧
  w_maps (leaflet s')
  = <[n := mkLMap mapId (SetView la1 lo1 z1) {[S n]}]> (w_maps (leaflet s)) ∧
  w_next (leaflet s') = S (S n) ∧
  console s' = console s ∧ timers s' = [].
Proof.
  intros Hd Hn Hi Hc Hl Ht n s'. unfold s', run. cbn [foldl].
  rewrite !step_initialize.
  set (t1 := mkTimer 100%Q mapId la1 lo1 z1).
  set (t2 := mkTimer 100%Q mapId la2 lo2 z2).
  set (s2 := set_timers _ (set_timers _ s)).
  assert (H3 : step s2 Fire
               = created mapId la1 lo1 z1 (set_timers (λ _, [t2]) s2)).
  { rewrite (step_fire s2 t1 [t2]) by (cbn; by rewrite Ht).
    unfold run_timer. cbn [t1 t_mapId t_latitude t_longitude t_zoom].
    by rewrite deferred_creates. }
  rewrite H3. rewrite (step_fire _ t2 []) by reflexivity.
  unfold run_timer. cbn [t2 t_mapId t_latitude t_longitude t_zoom].
  rewrite deferred_truthy; [done|done|].
  left. cbn. rewrite lookup_insert_eq. by eexists.
Qed.

(** X10: the deferred body looks at the page when the timer fires, not
    when [initializeMap] is called.  For an identifier with nothing at
    [maps[mapId]] (no entry, no inherited member), a view for which Leaflet
    loads the tiles, and no other timer pending: an element mounted between
    the call and the firing gets its map; an element mounted after the
    firing does not, no map is made, and the one thing the attempt leaves
    behind is the console line. *)
Theorem attempt_reads_page_when_fired s mapId la lo z :
  mapId ∉ document s → maps s !! mapId = None → inherited mapId = false →
  on_tiles (mkLMap mapId (SetView la lo z) {[S (w_next (leaflet s))]})
  = None →
  timers s = [] →
  let n := w_next (leaflet s) in
  let in_time := run s [ CallInitializeMap mapId la lo z; Mount mapId; Fire ] in
  let too_late := run s [ CallInitializeMap mapId la lo z; Fire; Mount mapId ] in
  maps in_time !! mapId = Some (mkMapData n []) ∧
  w_maps (leaflet in_time) !! n
  = Some (mkLMap mapId (SetView la lo z) {[S n]}) ∧
  console in_time = console s ∧
  maps too_late = maps s ∧
  w_maps (leaflet too_late) = w_maps (leaflet s) ∧
  w_next (leaflet too_late) = w_next (leaflet s) ∧
  console too_late = console s ++ [msg_element_not_found mapId] ∧
  timers too_late = [].
Proof.
  intros Hd Hn Hi Hl Ht n in_time too_late.
  set (t := mkTimer 100%Q mapId la lo z).
  assert (Hin : in_time
    = created mapId la lo z (set_timers (λ _, []) (mount mapId s))).
  { unfold in_time, run. cbn [foldl].
    rewrite step_initialize. fold t.
    assert (Hm : step (set_timers (λ q, q ++ [t]) s) (Mount mapId)
                 = set_timers (λ q, q ++ [t]) (mount mapId s)).
    { unfold step. cbn. unfold mount. cbn.
      by rewrite !bool_decide_eq_false_2 by done. }
    rewrite Hm.
    rewrite (step_fire _ t []).
    - unfold run_timer. cbn [t t_mapId t_latitude t_longitude t_zoom].
      rewrite deferred_creates; [done| | | | |].
      + unfold mount. rewrite bool_decide_eq_false_2 by done. cbn. set_solver.
      + unfold mount. by rewrite bool_decide_eq_false_2 by done.
      + done.
      + unfold mount. rewrite bool_decide_eq_false_2 by done. cbn. set_solver.
      + unfold mount. by rewrite bool_decide_eq_false_2 by done.
    - unfold mount. rewrite bool_decide_eq_false_2 by done. cbn.
      by rewrite Ht. }
  assert (Hlate : too_late
    = mount mapId
        (set_console (λ log, log ++ [msg_element_not_found mapId])
           (set_timers (λ _, []) s))).
  { unfold too_late, run. cbn [foldl].
    rewrite step_initialize.
    rewrite (step_fire _ t []) by (cbn; by rewrite Ht).
    unfold run_timer. cbn [t t_mapId t_latitude t_longitude t_zoom].
    rewrite deferred_absent; [done|done]. }
  assert (Hmount : ∀ s0, document s0 = document s →
            mount mapId s0
            = set_document (λ d, d ∪ {[mapId]})
                (set_leaflet (λ w, mkWorld (w_next w) (w_maps w) (w_layers w)
                                           (w_containers w ∖ {[mapId]})) s0)).
  { intros s0 Hs0. unfold mount. rewrite Hs0.
    by rewrite bool_decide_eq_false_2 by done. }
  rewrite Hin, Hlate, !Hmount by done.
  cbn. rewrite !lookup_insert_eq. done.
Qed.

(** ** Calls that repeat or combine *)

(** X11: [clearMap] twice is [clearMap] once: the second call finds an
    empty [layers], takes nothing off the map and leaves the whole state as
    the first call left it. *)
Theorem clearMap_idempotent s mapId d :
  maps s !! mapId = Some d →
  clearMap mapId (clearMap mapId s).2 = (Ok tt, (clearMap mapId s).2).
Proof.
  intros H. rewrite (clearMap_entry _ _ _ H). cbn [snd].
  assert (He : maps (cleared mapId d s) !! mapId
               = Some (mkMapData (md_map d) [])).
  { cbn. by rewrite lookup_alter_eq, H. }
  rewrite (clearMap_entry _ _ _ He). f_equal.
  unfold cleared. cbn. f_equal.
  - rewrite alter_alter_eq. by apply alter_ext.
  - f_equal. rewrite alter_alter_eq. apply alter_ext. intros [] _.
    unfold detach_all. cbn. f_equal. set_solver.
Qed.

(** X12: when [fitBounds] returns normally twice in a row, the second call
    leaves the state as the first call left it: it reads [layers], not the
    current view, and asks for the same region again. *)
Theorem fitBounds_idempotent s mapId d :
  maps s !! mapId = Some d →
  (fitBounds mapId s).1 = Ok tt →
  (fitBounds mapId (fitBounds mapId s).2).1 = Ok tt →
  fitBounds mapId (fitBounds mapId s).2 = (Ok tt, (fitBounds mapId s).2).
Proof.
  intros H. rewrite (fitBounds_entry _ _ _ H). unfold fit_outcome.
  case_bool_decide as Hlen.
  - destruct (on_bounds (leaflet s) (md_layers d)); [done|].
    destruct (_ ≫= on_tiles); [done|]. cbn [fst snd]. intros _.
    assert (He : maps (fitted d s) !! mapId = Some d) by done.
    rewrite (fitBounds_entry _ _ _ He). unfold fit_outcome.
    rewrite bool_decide_eq_true_2 by done.
    destruct (on_bounds (leaflet (fitted d s)) (md_layers d)); [done|].
    destruct (_ ≫= on_tiles); [done|]. intros _. f_equal.
    unfold fitted, set_leaflet. cbn. rewrite alter_alter_eq.
    by rewrite (alter_ext (fit _ ∘ fit _)
                  (fit (Pad (GroupBounds (md_layers d)) 0.1%Q))).
  - cbn [fst snd]. intros _ _. rewrite (fitBounds_entry _ _ _ H).
    unfold fit_outcome. by rewrite bool_decide_eq_false_2.
Qed.

Lemma place_markers_by_addMarker mapId m ms : ∀ s d,
  maps s !! mapId = Some d → md_map d = m →
  foldl (place_marker mapId m) s ms = foldl (addMarker_of mapId) s ms.
Proof.
  induction ms as [|md ms IH]; intros s d H Hm; [done|].
  cbn [foldl].
  assert (Hone : addMarker_of mapId s md = place_marker mapId m s md).
  { unfold addMarker_of. rewrite (addMarker_entry _ _ _ _ _ _ _ H).
    by rewrite Hm. }
  rewrite Hone. eapply IH; [by apply place_keeps_entry|done].
Qed.

(** X13: on an existing entry [addMarkers(id, markers)] leaves the state
    that calling [addMarker(id, m.lat, m.lng, m.title || '', m.popup)] for
    each record [m], in order, leaves; it follows that adding a list in two
    parts is adding it at once, and that an empty list changes nothing. *)
Theorem addMarkers_by_addMarker s mapId d markers more :
  maps s !! mapId = Some d →
  addMarkers mapId markers s
  = (Ok tt, foldl (addMarker_of mapId) s markers) ∧
  addMarkers mapId (markers ++ more) s
  = addMarkers mapId more (addMarkers mapId markers s).2 ∧
  addMarkers mapId [] s = (Ok tt, s).
Proof.
  intros H.
  assert (Hall : ∀ ms, addMarkers mapId ms s
                       = (Ok tt, foldl (addMarker_of mapId) s ms)).
  { intros ms. rewrite (addMarkers_entry _ _ _ _ H).
    by erewrite place_markers_by_addMarker. }
  split; [apply Hall|]. split; [|apply Hall].
  rewrite !Hall. cbn [snd]. rewrite foldl_app.
  set (s1 := foldl (addMarker_of mapId) s markers).
  assert (Hs1 : s1 = foldl (place_marker mapId (md_map d)) s markers).
  { unfold s1. symmetry. by eapply place_markers_by_addMarker. }
  destruct (place_markers_shape mapId (md_map d) markers s) as (Hmaps & _).
  rewrite <- Hs1 in Hmaps.
  assert (He : maps s1 !! mapId
               = Some (mkMapData (md_map d)
                         (md_layers d
                          ++ seq (w_next (leaflet s)) (length markers)))).
  { by rewrite Hmaps, lookup_alter_eq, H. }
  rewrite (addMarkers_entry _ _ _ _ He). cbn [md_map].
  f_equal. symmetry. by eapply place_markers_by_addMarker.
Qed.

(** X14: on an existing entry [addCircle] returns normally and appends one
    new handle to [layers]; the circle behind it has the centre, radius,
    colours and opacity that were passed, unchecked (an opacity outside
    0..1 included), has no popup, and was added to the entry's map and to
    that map only. *)
Theorem addCircle_appends s mapId d la lo r c f o :
  maps s !! mapId = Some d →
  let h := w_next (leaflet s) in
  ∃ s',
    addCircle mapId la lo r c f o s = (Ok tt, s') ∧
    maps s' !! mapId = Some (mkMapData (md_map d) (md_layers d ++ [h])) ∧
    w_layers (leaflet s') !! h
    = Some (mkLayer (Circle la lo c f o r) None {[md_map d]}) ∧
    (∀ mp, w_maps (leaflet s) !! md_map d = Some mp →
           w_maps (leaflet s') !! md_map d
           = Some (mkLMap (m_container mp) (m_view mp)
                          (m_layers mp ∪ {[h]}))) ∧
    console s' = console s.
Proof.
  intros H h. eexists. split; [by apply addCircle_entry|].
  split; [by apply place_keeps_entry|].
  split; [cbn; by rewrite lookup_insert_eq|].
  split; [|done].
  intros mp Hmp. cbn. by rewrite lookup_alter_eq, Hmp.
Qed.

(** ** The registry and Leaflet agree *)

Lemma registry_tight_initial : registry_tight initial.
Proof.
  split; cbn.
  - intros mapId d H. by rewrite lookup_empty in H.
  - intros mapId d mp H. by rewrite lookup_empty in H.
Qed.

Lemma registry_tight_core s s' :
  same_core s s' → registry_tight s → registry_tight s'.
Proof.
  intros (Hm & Hn & Hwm & Hwl) [H1 H2].
  split; rewrite ?Hm, ?Hn, ?Hwm, ?Hwl; assumption.
Qed.

Lemma orphan_tight k s :
  registry_ok s → registry_tight s → registry_tight (orphan k s).
Proof.
  intros Hok [H1 H2]. split; cbn; [done|].
  intros mapId d mp H Hmp.
  destruct (H2 _ _ _ H Hmp) as (t & ly & Hly & Hov & Hset).
  pose proof (layer_below _ _ _ Hok Hly).
  exists t, ly. rewrite lookup_insert_ne by lia. done.
Qed.

Lemma place_tight k p mapId d s :
  registry_ok s → registry_tight s → maps s !! mapId = Some d →
  registry_tight (place k p mapId (md_map d) s).
Proof.
  intros Hok [H1 H2] Hd. split; cbn.
  - intros i d' H.
    destruct (decide (mapId = i)) as [<-|Hne].
    + rewrite lookup_alter_eq, Hd in H. injection H as <-. cbn.
      apply NoDup_app. split; [by eapply H1|]. split; [|apply NoDup_singleton].
      intros h Hh ->%list_elem_of_singleton.
      destruct (ok_layers s Hok _ _ _ Hd Hh) as (ly & _ & Hly & _).
      pose proof (layer_below _ _ _ Hok Hly). lia.
    + rewrite lookup_alter_ne in H by done. by eapply H1.
  - intros i d' mp' H Hmp'.
    destruct (decide (mapId = i)) as [<-|Hne].
    + rewrite lookup_alter_eq, Hd in H. injection H as <-. cbn in *.
      rewrite lookup_alter_eq in Hmp'.
      destruct (w_maps (leaflet s) !! md_map d) as [mp|] eqn:Hmp;
        [|done]. injection Hmp' as <-.
      destruct (H2 _ _ _ Hd Hmp) as (t & ly & Hly & Hov & Hset).
      pose proof (layer_below _ _ _ Hok Hly).
      exists t, ly. rewrite lookup_insert_ne by lia.
      repeat split; try done. cbn. rewrite Hset, list_to_set_app_L.
      set_solver.
    + rewrite lookup_alter_ne in H by done.
      assert (md_map d ≠ md_map d') as Hm.
      { intros Heq. apply Hne. by eapply entries_distinct. }
      rewrite lookup_alter_ne in Hmp' by done.
      destruct (H2 _ _ _ H Hmp') as (t & ly & Hly & Hov & Hset).
      pose proof (layer_below _ _ _ Hok Hly).
      exists t, ly. rewrite lookup_insert_ne by lia. done.
Qed.

Lemma cleared_tight mapId d s :
  registry_ok s → registry_tight s → maps s !! mapId = Some d →
  registry_tight (cleared mapId d s).
Proof.
  intros Hok [H1 H2] Hd. split; cbn.
  - intros i d' H.
    destruct (decide (mapId = i)) as [<-|Hne].
    + rewrite lookup_alter_eq, Hd in H. injection H as <-. apply NoDup_nil_2.
    + rewrite lookup_alter_ne in H by done. by eapply H1.
  - intros i d' mp' H Hmp'.
    destruct (decide (mapId = i)) as [<-|Hne].
    + rewrite lookup_alter_eq, Hd in H. injection H as <-. cbn in *.
      rewrite lookup_alter_eq in Hmp'.
      destruct (w_maps (leaflet s) !! md_map d) as [mp|] eqn:Hmp;
        [|done]. injection Hmp' as <-.
      destruct (H2 _ _ _ Hd Hmp) as (t & ly & Hly & Hov & Hset).
      exists t, ly. repeat split; try done. cbn. rewrite Hset.
      assert (t ∉ md_layers d) as Ht.
      { intros Hin.
        pose proof (tracked_is_overlay _ _ _ _ _ Hok Hd Hin Hly).
        congruence. }
      set_solver.
    + rewrite lookup_alter_ne in H by done.
      assert (md_map d ≠ md_map d') as Hm.
      { intros Heq. apply Hne. by eapply entries_distinct. }
      rewrite lookup_alter_ne in Hmp' by done. by eapply H2.
Qed.

Lemma fitted_tight mapId d s :
  registry_ok s → registry_tight s → maps s !! mapId = Some d →
  registry_tight (fitted d s).
Proof.
  intros Hok [H1 H2] Hd. split; cbn.
  - done.
  - intros i d' mp' H Hmp'.
    assert (∃ mp, w_maps (leaflet s) !! md_map d' = Some mp ∧
                  m_layers mp' = m_layers mp) as (mp & Hmp & ->).
    { destruct (decide (md_map d = md_map d')) as [Heq|Hne].
      - rewrite Heq, lookup_alter_eq in Hmp'.
        destruct (w_maps (leaflet s) !! md_map d') as [mp|]; [|done].
        injection Hmp' as <-. by exists mp.
      - rewrite lookup_alter_ne in Hmp' by done. by exists mp'. }
    by eapply H2.
Qed.

Lemma created_tight mapId la lo z s :
  registry_ok s → registry_tight s → maps s !! mapId = None →
  registry_tight (created mapId la lo z s).
Proof.
  intros Hok [H1 H2] Hn. split; cbn.
  - intros i d' H.
    destruct (decide (mapId = i)) as [<-|Hne].
    + rewrite lookup_insert_eq in H. injection H as <-. apply NoDup_nil_2.
    + rewrite lookup_insert_ne in H by done. by eapply H1.
  - intros i d' mp' H Hmp'.
    destruct (decide (mapId = i)) as [<-|Hne].
    + rewrite lookup_insert_eq in H. injection H as <-. cbn in *.
      rewrite lookup_insert_eq in Hmp'. injection Hmp' as <-.
      eexists (S (w_next (leaflet s))), _. rewrite lookup_insert_eq.
      repeat split; try done. cbn. set_solver.
    + rewrite lookup_insert_ne in H by done.
      destruct (ok_entry s Hok _ _ H) as (mp & _ & _ & Hmp & _).
      pose proof (map_below _ _ _ Hok Hmp).
      rewrite lookup_insert_ne in Hmp' by lia.
      destruct (H2 _ _ _ H Hmp') as (t & ly & Hly & Hov & Hset).
      pose proof (layer_below _ _ _ Hok Hly).
      exists t, ly. rewrite lookup_insert_ne by lia. done.
Qed.

Lemma stranded_tight mapId la lo z s :
  registry_ok s → registry_tight s →
  registry_tight (stranded mapId la lo z s).
Proof.
  intros Hok [H1 H2]. split; cbn; [done|].
  intros i d' mp' H Hmp'.
  destruct (ok_entry s Hok _ _ H) as (mp & _ & _ & Hmp & _).
  pose proof (map_below _ _ _ Hok Hmp).
  rewrite lookup_insert_ne in Hmp' by lia.
  destruct (H2 _ _ _ H Hmp') as (t & ly & Hly & Hov & Hset).
  pose proof (layer_below _ _ _ Hok Hly).
  exists t, ly. rewrite lookup_insert_ne by lia. done.
Qed.

Lemma effect_tight s s' :
  effect s s' → registry_ok s → registry_tight s → registry_tight s'.
Proof.
  intros [? Hc|k p i d ? Hk Hd Hc|k ? Hc|i d ? Hd Hc|i d ? Hd Hc
         |i la lo z ? Hn Hc|i la lo z ? Hc] Hok Ht;
    apply (registry_tight_core _ _ Hc).
  - done.
  - by apply place_tight.
  - by apply orphan_tight.
  - by apply cleared_tight.
  - by eapply fitted_tight.
  - by apply created_tight.
  - by apply stranded_tight.
Qed.

Lemma effects_tight s s' :
  rtc effect s s' → registry_ok s → registry_tight s → registry_tight s'.
Proof.
  induction 1 as [|s s1 s2 H1 _ IH]; [done|].
  intros Hok Ht. apply IH; [by eapply effect_ok|by eapply effect_tight].
Qed.

Lemma run_tight acts : registry_tight (run initial acts).
Proof.
  eapply effects_tight;
    [apply run_effects|apply registry_ok_initial|apply registry_tight_initial].
Qed.

(** X15: in every state the page can reach, no handle occurs twice in the
    [layers] of an entry, and no handle occurs in the [layers] of two
    entries. *)
Theorem layers_are_distinct acts mapId d :
  let s := run initial acts in
  maps s !! mapId = Some d →
  NoDup (md_layers d) ∧
  ∀ other d' h, other ≠ mapId → maps s !! other = Some d' →
                h ∈ md_layers d → h ∉ md_layers d'.
Proof.
  intros s Hd. pose proof (run_ok acts) as Hok. fold s in Hok.
  pose proof (run_tight acts) as Ht. fold s in Ht.
  split; [by eapply (tight_nodup s Ht)|].
  intros other d' h Hne Hd' Hh Hh'.
  destruct (ok_layers s Hok _ _ _ Hd Hh) as (ly & _ & Hly & _ & Hadd & _).
  destruct (ok_layers s Hok _ _ _ Hd' Hh') as (ly' & _ & Hly' & _ & Hadd' & _).
  rewrite Hly in Hly'. injection Hly' as <-. rewrite Hadd in Hadd'.
  apply Hne. eapply entries_distinct; [done|exact Hd'|exact Hd|].
  apply (inj singleton) in Hadd'. done.
Qed.

(** X16: in every state the page can reach, of the layers the module
    itself added to the map of an entry, those on the map are its tile
    layer and the handles of the entry's [layers], nothing else; so after
    [clearMap] the tile layer is the only one of them left on the map.
    (What Leaflet puts on a map by itself, such as the renderer of the
    circles, is not among them.) *)
Theorem clearMap_leaves_tiles_only acts mapId d :
  let s := run initial acts in
  maps s !! mapId = Some d →
  ∃ mp mp' t ly,
    w_maps (leaflet s) !! md_map d = Some mp ∧
    w_layers (leaflet s) !! t = Some ly ∧
    is_overlay (l_kind ly) = false ∧
    m_layers mp = {[t]} ∪ list_to_set (md_layers d) ∧
    w_maps (leaflet (clearMap mapId s).2) !! md_map d = Some mp' ∧
    m_layers mp' = {[t]}.
Proof.
  intros s Hd. pose proof (run_ok acts) as Hok. fold s in Hok.
  pose proof (run_tight acts) as Ht. fold s in Ht.
  destruct (ok_entry s Hok _ _ Hd) as (mp & _ & _ & Hmp & _).
  destruct (tight_layers s Ht _ _ _ Hd Hmp) as (t & ly & Hly & Hov & Hset).
  exists mp, (detach_all (md_layers d) mp), t, ly.
  repeat split; try done.
  - rewrite (clearMap_entry _ _ _ Hd). cbn. by rewrite lookup_alter_eq, Hmp.
  - cbn. rewrite Hset.
    assert (t ∉ md_layers d) as Hnot.
    { intros Hin.
      pose proof (tracked_is_overlay _ _ _ _ _ Hok Hd Hin Hly). congruence. }
    set_solver.
Qed.

(** X17: when the deferred body of [initializeMap] gets as far as adding
    the tile layer (element found, nothing at [maps[mapId]], element
    holding no map yet) and Leaflet throws there, the body ends in that
    exception with the map already made: Leaflet holds a map in the
    element, the registry has no entry for the identifier, nothing is
    reported; and every later run of the deferred body for that identifier
    in the state so reached throws [Map container is already initialized.]
    and changes nothing. *)
Theorem failed_tile_load_strands_map s mapId la lo z e :
  mapId ∈ document s → maps s !! mapId = None → inherited mapId = false →
  mapId ∉ w_containers (leaflet s) →
  on_tiles (mkLMap mapId (SetView la lo z) {[S (w_next (leaflet s))]})
  = Some e →
  let n := w_next (leaflet s) in
  let s' := (initializeMap_deferred mapId la lo z s).2 in
  (initializeMap_deferred mapId la lo z s).1 = Throw e ∧
  maps s' = maps s ∧ console s' = console s ∧
  w_maps (leaflet s') !! n = Some (mkLMap mapId (SetView la lo z) {[S n]}) ∧
  ∀ la' lo' z',
    initializeMap_deferred mapId la' lo' z' s'
    = (Throw (Error "Map container is already initialized."), s').
Proof.
  intros Hd Hn Hi Hc Ht n s'.
  assert (Hs : initializeMap_deferred mapId la lo z s
               = (Throw e, stranded mapId la lo z s)).
  { rewrite deferred_undefined by done. unfold creation, new_map.
    rewrite bool_decide_eq_false_2 by done. by rewrite Ht. }
  unfold s'. rewrite Hs. cbn [fst snd]. repeat split; try done.
  - cbn. by rewrite lookup_insert_eq.
  - intros la' lo' z'. rewrite deferred_undefined by done.
    unfold creation. rewrite bool_decide_eq_true_2; [done|].
    cbn. set_solver.
Qed.

End Interop.

(** * The properties at work

    What follows runs the module against [leaflet_sample]. *)

#[local] Existing Instance leaflet_sample.

Lemma deferred_surface_absent_witness :
  ∃ s', fire (run initial [CallInitializeMap "m1" 10%Q 20%Q 5%Q])
        = (Ok tt, s') ∧
    console s' = [] ++ [msg_element_not_found "m1"] ∧
    maps s' = ∅ ∧ leaflet s' = mkWorld 0 ∅ ∅ ∅ ∧
    document s' = ∅ ∧ timers s' = [].
Proof.
  refine (deferred_surface_absent
           (run initial [CallInitializeMap "m1" 10%Q 20%Q 5%Q])
           "m1" 10%Q 20%Q 5%Q [] _ _).
  - reflexivity.
  - vm_compute. set_solver.
Defined.



Lemma addMarker_popup_witness :
  ∃ s' ly,
    addMarker "m1" 1%Q 2%Q (JStr "t") (JStr "") page_m1 = (Ok tt, s') ∧
    maps s' !! "m1" = Some (mkMapData 0 ([] ++ [2])) ∧
    w_layers (leaflet s') !! 2 = Some ly ∧
    l_kind ly = Marker 1%Q 2%Q (JStr "t") ∧
    l_added_to ly = {[0]} ∧
    (is_Some (l_popup ly) ↔ truthy (JStr "") = true) ∧
    (truthy (JStr "") = true → l_popup ly = Some (JStr "")) ∧
    (JStr "" = JStr "" ∨ JStr "" = JNull ∨ JStr "" = JUndefined →
     l_popup ly = None).
Proof.
  refine (addMarker_popup page_m1 "m1" (mkMapData 0 [])
           1%Q 2%Q (JStr "t") (JStr "") _).
  reflexivity.
Defined.

Lemma addMarkers_appends_witness :
  ∃ s' hs,
    addMarkers "m1" [ mkMarkerData 1%Q 1%Q JUndefined JUndefined;
                      mkMarkerData 2%Q 2%Q JUndefined JUndefined ] page_m1
    = (Ok tt, s') ∧
    maps s' !! "m1" = Some (mkMapData 0 ([] ++ hs)) ∧
    length hs = 2 ∧
    NoDup hs ∧
    (∀ i md,
       [ mkMarkerData 1%Q 1%Q JUndefined JUndefined;
         mkMarkerData 2%Q 2%Q JUndefined JUndefined ] !! i = Some md →
       ∃ h, hs !! i = Some h ∧
            2 ≤ h < w_next (leaflet s') ∧
            w_layers (leaflet s') !! h
            = Some (mkLayer
                      (Marker (lat md) (lng md) (js_or (title md) (JStr "")))
                      (popup_of (popup md)) {[0]})).
Proof.
  refine (addMarkers_appends page_m1 "m1" (mkMapData 0 [])
           [ mkMarkerData 1%Q 1%Q JUndefined JUndefined;
             mkMarkerData 2%Q 2%Q JUndefined JUndefined ] _).
  reflexivity.
Defined.

Lemma layers_attached_to_own_map_witness :
  ∃ ly mp,
    w_layers (leaflet (run initial two_maps_actions)) !! 4 = Some ly ∧
    is_overlay (l_kind ly) = true ∧
    l_added_to ly = {[0]} ∧
    w_maps (leaflet (run initial two_maps_actions)) !! 0 = Some mp ∧
    4 ∈ m_layers mp ∧
    ∀ mapId' d', mapId' ≠ "m1" →
                 maps (run initial two_maps_actions) !! mapId' = Some d' →
                 md_map d' ∉ l_added_to ly.
Proof.
  refine (layers_attached_to_own_map two_maps_actions "m1" (mkMapData 0 [4]) 4 _ _).
  - reflexivity.
  - set_solver.
Defined.

Lemma entries_persist_witness :
  (∀ acts, ∃ d', maps (run page_m1 acts) !! "m1" = Some d' ∧
                 md_map d' = 0) ∧
  (∀ la lo z, maps (step page_m1 (CallInitializeMap "m1" la lo z)) !! "m1"
              = Some (mkMapData 0 [])) ∧
  maps (step page_m1 Fire) !! "m1" = Some (mkMapData 0 []) ∧
  (∀ la lo z, maps (run_timer (mkTimer 100%Q "m1" la lo z) page_m1).2 !! "m1"
              = Some (mkMapData 0 [])).
Proof.
  refine (entries_persist page_m1 "m1" (mkMapData 0 []) _).
  reflexivity.
Defined.

Lemma initializeMap_twice_witness :
  let s1 := (initializeMap_deferred "m1" 10%Q 20%Q 5%Q page_mounted).2 in
  let s1' := run s1 [] in
  let s2 := (initializeMap "m1" 99%Q 99%Q 1%Q s1').2 in
  let s3 := (run_timer (mkTimer 100%Q "m1" 99%Q 99%Q 1%Q)
               (set_document (λ _, ∅) s2)).2 in
  maps s1 !! "m1" = Some (mkMapData 0 []) ∧
  w_maps (leaflet s1) !! 0
  = Some (mkLMap "m1" (SetView 10%Q 20%Q 5%Q) {[1]}) ∧
  maps s3 = maps s1' ∧
  leaflet s3 = leaflet s1' ∧
  size (w_maps (leaflet s3)) = size (w_maps (leaflet s1')).
Proof.
  refine (initializeMap_twice page_mounted "m1"
           10%Q 20%Q 5%Q 99%Q 99%Q 1%Q [] ∅ _ _).
  - reflexivity.
  - exists (mkMapData 0 []). reflexivity.
Defined.

(** The scenario of the specification: [initialize(id, 10, 20, 5)] followed
    by [initialize(id, 99, 99, 1)], each with its timer fired. *)
Example initializeMap_twice_scenario :
  let s := run page_mounted
    [ CallInitializeMap "m1" 10%Q 20%Q 5%Q; Fire;
      CallInitializeMap "m1" 99%Q 99%Q 1%Q; Fire ] in
  maps s !! "m1" = Some (mkMapData 0 []) ∧
  size (maps s) = 1 ∧
  size (w_maps (leaflet s)) = 1 ∧
  w_maps (leaflet s) !! 0 = Some (mkLMap "m1" (SetView 10%Q 20%Q 5%Q) {[1]}).
Proof. repeat split; vm_compute; reflexivity. Qed.

Lemma clearMap_detaches_witness :
  ∃ s' mp mp',
    clearMap "m1" (run initial two_maps_actions) = (Ok tt, s') ∧
    maps s' !! "m1" = Some (mkMapData 0 []) ∧
    w_maps (leaflet (run initial two_maps_actions)) !! 0 = Some mp ∧
    w_maps (leaflet s') !! 0 = Some mp' ∧
    (∀ h, h ∈ [4] → h ∈ m_layers mp ∧ h ∉ m_layers mp') ∧
    m_container mp' = m_container mp ∧
    m_view mp' = m_view mp ∧
    (∀ t ly, t ∈ m_layers mp →
             w_layers (leaflet (run initial two_maps_actions)) !! t = Some ly →
             is_overlay (l_kind ly) = false → t ∈ m_layers mp') ∧
    (∃ t ly, t ∈ m_layers mp' ∧ w_layers (leaflet s') !! t = Some ly ∧
             is_overlay (l_kind ly) = false) ∧
    w_layers (leaflet s') = w_layers (leaflet (run initial two_maps_actions)).
Proof.
  refine (clearMap_detaches two_maps_actions "m1" (mkMapData 0 [4]) _).
  reflexivity.
Defined.

(** The scenario of the specification: [initializeMap("m1", 51.5, -0.1,
    13)], [addCircle("m1", 51.5, -0.1, 500, "red", "red", 0.3)],
    [clearMap("m1")] on a page where [m1] is mounted. *)
Example clearMap_scenario :
  let s := run initial
    [ Mount "m1"; CallInitializeMap "m1" 51.5%Q (-0.1)%Q 13%Q; Fire;
      CallAddCircle "m1" 51.5%Q (-0.1)%Q 500%Q "red" "red" 0.3%Q;
      CallClearMap "m1" ] in
  maps s !! "m1" = Some (mkMapData 0 []) ∧
  w_maps (leaflet s) !! 0
  = Some (mkLMap "m1" (SetView 51.5%Q (-0.1)%Q 13%Q) {[1]}).
Proof. split; vm_compute; reflexivity. Qed.

Lemma fitBounds_viewport_witness :
  ∃ s' mp,
    fitBounds "m1" (run initial two_maps_actions) = (Ok tt, s') ∧
    w_maps (leaflet (run initial two_maps_actions)) !! 0 = Some mp ∧
    maps s' = maps (run initial two_maps_actions) ∧
    ([4] ≠ [] →
       w_maps (leaflet s')
       = <[0 := mkLMap (m_container mp)
                       (FitView (Pad (GroupBounds [4]) 0.1%Q))
                       (m_layers mp)]>
           (w_maps (leaflet (run initial two_maps_actions)))) ∧
    ([4] = [] → s' = run initial two_maps_actions) ∧
    w_layers (leaflet s') = w_layers (leaflet (run initial two_maps_actions)) ∧
    w_next (leaflet s') = w_next (leaflet (run initial two_maps_actions)) ∧
    document s' = document (run initial two_maps_actions) ∧
    console s' = console (run initial two_maps_actions) ∧
    timers s' = timers (run initial two_maps_actions).
Proof.
  refine (fitBounds_viewport two_maps_actions "m1" (mkMapData 0 [4]) _ _ _).
  - reflexivity.
  - intros _. reflexivity.
  - intros _ mp _. reflexivity.
Defined.

(** C5 fails on the page whose map [m1] carries a circle at a longitude
    of 1e308 degrees: the entry exists, its [layers] is not empty, and
    [fitBounds] does not return: it ends in the exception of [getBounds],
    the state being what it was; the view of the map is still the one
    [initializeMap] set, not a padded region. *)
Lemma fitBounds_refused :
  let s := run initial far_circle_actions in
  maps s !! "m1" = Some (mkMapData 0 [2]) ∧
  ¬ (∃ s', fitBounds "m1" s = (Ok tt, s')) ∧
  (∃ e, fitBounds "m1" s = (Throw e, s)) ∧
  m_view <$> w_maps (leaflet (fitBounds "m1" s).2) !! 0
  = Some (SetView 51.5%Q (-0.1)%Q 13%Q).
Proof.
  assert (H : fitBounds "m1" (run initial far_circle_actions)
              = (Throw (Error "Invalid LatLng object"),
                 run initial far_circle_actions)).
  { vm_compute. reflexivity. }
  cbn zeta. split; [reflexivity|]. split; [|split].
  - intros [s' Hs']. rewrite H in Hs'. discriminate.
  - eexists. exact H.
  - rewrite H. vm_compute. reflexivity.
Qed.

(** The scenario of the specification: after [addMarker] and [clearMap],
    [fitBounds] changes nothing. *)
Example fitBounds_after_clearMap :
  let s := run page_m1
    [ CallAddMarker "m1" 1%Q 2%Q (JStr "t") (JStr "p"); CallClearMap "m1" ] in
  fitBounds "m1" s = (Ok tt, s).
Proof. vm_compute. reflexivity. Qed.

Lemma guard_reports_witness :
  perform (CallFitBounds "m2") page_m1
  = (Ok tt, mkState (maps page_m1) (document page_m1) (leaflet page_m1)
                    (console page_m1 ++ [msg_not_initialized "m2"])
                    (timers page_m1)).
Proof.
  refine (guard_reports page_m1 (CallFitBounds "m2") "m2" _ _ _);
    reflexivity.
Defined.

Lemma entry_calls_return_witness :
  ((∀ i, CallClearMap "m1" ≠ CallFitBounds i) →
   (perform (CallClearMap "m1") page_m1).1 = Ok tt) ∧
  console (step page_m1 (CallClearMap "m1")) = console page_m1 ∧
  document (step page_m1 (CallClearMap "m1")) = document page_m1 ∧
  timers (step page_m1 (CallClearMap "m1")) = timers page_m1 ∧
  ∃ d', maps (step page_m1 (CallClearMap "m1")) !! "m1" = Some d' ∧
        md_map d' = 0.
Proof.
  refine (entry_calls_return page_m1 (CallClearMap "m1") "m1"
           (mkMapData 0 []) _ _); reflexivity.
Defined.

Lemma console_lines_witness :
  ∃ i, "Map 'm1' not initialized" = msg_element_not_found i ∨
       "Map 'm1' not initialized" = msg_not_initialized i.
Proof.
  refine (console_lines [CallClearMap "m1"] "Map 'm1' not initialized" _).
  vm_compute. set_solver.
Defined.

Lemma other_entries_untouched_witness :
  maps (step (run initial two_maps_actions) (CallClearMap "m1")) !! "m2"
  = Some (mkMapData 2 [5]) ∧
  w_maps (leaflet (step (run initial two_maps_actions) (CallClearMap "m1")))
    !! 2
  = w_maps (leaflet (run initial two_maps_actions)) !! 2 ∧
  ∀ h, h ∈ [5] →
       w_layers (leaflet (step (run initial two_maps_actions)
                               (CallClearMap "m1"))) !! h
       = w_layers (leaflet (run initial two_maps_actions)) !! h.
Proof.
  refine (other_entries_untouched two_maps_actions (CallClearMap "m1")
           "m1" "m2" (mkMapData 2 [5]) _ _ _).
  - reflexivity.
  - discriminate.
  - reflexivity.
Defined.

Lemma layers_never_modified_witness :
  w_layers (leaflet (step (run initial two_maps_actions)
                          (CallClearMap "m1"))) !! 4
  = w_layers (leaflet (run initial two_maps_actions)) !! 4.
Proof.
  refine (layers_never_modified (run initial two_maps_actions)
           (CallClearMap "m1") 4 _).
  vm_compute. lia.
Defined.

Lemma inherited_never_registered_witness :
  maps (run initial [ Mount "toString";
                      CallInitializeMap "toString" 10%Q 20%Q 5%Q; Fire ])
    !! "toString" = None.
Proof.
  refine (inherited_never_registered
           [ Mount "toString";
             CallInitializeMap "toString" 10%Q 20%Q 5%Q; Fire ] "toString" _).
  reflexivity.
Defined.

Lemma pending_initializes_first_wins_witness :
  let s' := run page_mounted
              [ CallInitializeMap "m1" 10%Q 20%Q 5%Q;
                CallInitializeMap "m1" 99%Q 99%Q 1%Q; Fire; Fire ] in
  maps s' = <["m1" := mkMapData 0 []]> (maps page_mounted) ∧
  w_maps (leaflet s')
  = <[0 := mkLMap "m1" (SetView 10%Q 20%Q 5%Q) {[1]}]>
      (w_maps (leaflet page_mounted)) ∧
  w_next (leaflet s') = 2 ∧
  console s' = console page_mounted ∧ timers s' = [].
Proof.
  refine (pending_initializes_first_wins page_mounted "m1"
           10%Q 20%Q 5%Q 99%Q 99%Q 1%Q _ _ _ _ _ _).
  - vm_compute. set_solver.
  - reflexivity.
  - reflexivity.
  - vm_compute. set_solver.
  - reflexivity.
  - reflexivity.
Defined.

Lemma attempt_reads_page_when_fired_witness :
  let in_time := run initial [ CallInitializeMap "m1" 10%Q 20%Q 5%Q;
                               Mount "m1"; Fire ] in
  let too_late := run initial [ CallInitializeMap "m1" 10%Q 20%Q 5%Q;
                                Fire; Mount "m1" ] in
  maps in_time !! "m1" = Some (mkMapData 0 []) ∧
  w_maps (leaflet in_time) !! 0
  = Some (mkLMap "m1" (SetView 10%Q 20%Q 5%Q) {[1]}) ∧
  console in_time = console initial ∧
  maps too_late = maps initial ∧
  w_maps (leaflet too_late) = w_maps (leaflet initial) ∧
  w_next (leaflet too_late) = w_next (leaflet initial) ∧
  console too_late = console initial ++ [msg_element_not_found "m1"] ∧
  timers too_late = [].
Proof.
  refine (attempt_reads_page_when_fired initial "m1" 10%Q 20%Q 5%Q _ _ _ _ _).
  - vm_compute. set_solver.
  - reflexivity.
  - reflexivity.
  - reflexivity.
  - reflexivity.
Defined.

Lemma clearMap_idempotent_witness :
  clearMap "m1" (clearMap "m1" (run initial two_maps_actions)).2
  = (Ok tt, (clearMap "m1" (run initial two_maps_actions)).2).
Proof.
  refine (clearMap_idempotent (run initial two_maps_actions) "m1"
           (mkMapData 0 [4]) _).
  reflexivity.
Defined.

Lemma fitBounds_idempotent_witness :
  fitBounds "m1" (fitBounds "m1" (run initial two_maps_actions)).2
  = (Ok tt, (fitBounds "m1" (run initial two_maps_actions)).2).
Proof.
  refine (fitBounds_idempotent (run initial two_maps_actions) "m1"
           (mkMapData 0 [4]) _ _ _); reflexivity.
Defined.

Lemma addMarkers_by_addMarker_witness :
  addMarkers "m1" [mkMarkerData 1%Q 1%Q JUndefined JUndefined] page_m1
  = (Ok tt, foldl (addMarker_of "m1") page_m1
              [mkMarkerData 1%Q 1%Q JUndefined JUndefined]) ∧
  addMarkers "m1" ([mkMarkerData 1%Q 1%Q JUndefined JUndefined]
                   ++ [mkMarkerData 2%Q 2%Q (JStr "t") (JStr "p")]) page_m1
  = addMarkers "m1" [mkMarkerData 2%Q 2%Q (JStr "t") (JStr "p")]
      (addMarkers "m1" [mkMarkerData 1%Q 1%Q JUndefined JUndefined]
         page_m1).2 ∧
  addMarkers "m1" [] page_m1 = (Ok tt, page_m1).
Proof.
  refine (addMarkers_by_addMarker page_m1 "m1" (mkMapData 0 []) _ _ _).
  reflexivity.
Defined.

Lemma addCircle_appends_witness :
  ∃ s',
    addCircle "m1" 51.5%Q (-0.1)%Q 500%Q "red" "red" 7%Q page_m1
    = (Ok tt, s') ∧
    maps s' !! "m1" = Some (mkMapData 0 ([] ++ [2])) ∧
    w_layers (leaflet s') !! 2
    = Some (mkLayer (Circle 51.5%Q (-0.1)%Q "red" "red" 7%Q 500%Q) None
                    {[0]}) ∧
    (∀ mp, w_maps (leaflet page_m1) !! 0 = Some mp →
           w_maps (leaflet s') !! 0
           = Some (mkLMap (m_container mp) (m_view mp)
                          (m_layers mp ∪ {[2]}))) ∧
    console s' = console page_m1.
Proof.
  refine (addCircle_appends page_m1 "m1" (mkMapData 0 [])
           51.5%Q (-0.1)%Q 500%Q "red" "red" 7%Q _).
  reflexivity.
Defined.

Lemma layers_are_distinct_witness :
  NoDup [4] ∧
  ∀ other d' h, other ≠ "m1" →
                maps (run initial two_maps_actions) !! other = Some d' →
                h ∈ [4] → h ∉ md_layers d'.
Proof.
  refine (layers_are_distinct two_maps_actions "m1" (mkMapData 0 [4]) _).
  reflexivity.
Defined.

Lemma clearMap_leaves_tiles_only_witness :
  ∃ mp mp' t ly,
    w_maps (leaflet (run initial two_maps_actions)) !! 0 = Some mp ∧
    w_layers (leaflet (run initial two_maps_actions)) !! t = Some ly ∧
    is_overlay (l_kind ly) = false ∧
    m_layers mp = {[t]} ∪ list_to_set [4] ∧
    w_maps (leaflet (clearMap "m1" (run initial two_maps_actions)).2) !! 0
    = Some mp' ∧
    m_layers mp' = {[t]}.
Proof.
  refine (clearMap_leaves_tiles_only two_maps_actions "m1" (mkMapData 0 [4]) _).
  reflexivity.
Defined.

Lemma failed_tile_load_strands_map_witness :
  let s' := (initializeMap_deferred "m1" 0%Q 1e308%Q 13%Q page_mounted).2 in
  (initializeMap_deferred "m1" 0%Q 1e308%Q 13%Q page_mounted).1
  = Throw (Error "Attempted to load an infinite number of tiles") ∧
  maps s' = maps page_mounted ∧ console s' = console page_mounted ∧
  w_maps (leaflet s') !! 0
  = Some (mkLMap "m1" (SetView 0%Q 1e308%Q 13%Q) {[1]}) ∧
  ∀ la' lo' z',
    initializeMap_deferred "m1" la' lo' z' s'
    = (Throw (Error "Map container is already initialized."), s').
Proof.
  refine (failed_tile_load_strands_map page_mounted "m1" 0%Q 1e308%Q 13%Q
           (Error "Attempted to load an infinite number of tiles") _ _ _ _ _).
  - vm_compute. set_solver.
  - reflexivity.
  - reflexivity.
  - vm_compute. set_solver.
  - reflexivity.
Defined.
